(** * ARES engine: numeric primitives, collision predicates and the ECS core

    The vector and collision code (Cython, C [float] fields) is embedded over
    the IEEE-754 specification floats of the Standard Library ([spec_float]),
    at binary32 for [float] values and at binary64 where the code goes
    through libc's [double] functions ([sqrt], [pow]). *)

From Stdlib Require Import ZArith Bool Floats.SpecFloat.
From stdpp Require Import base option list gmap strings sorting.

(** ** C floating point *)

(** C [float]: IEEE-754 binary32, round to nearest even. *)
Module F32.
Definition prec : Z := 24.
Definition emax : Z := 128.
Definition zero : spec_float := S754_zero false.
Definition add := SFadd prec emax.
Definition sub := SFsub prec emax.
Definition mul := SFmul prec emax.
Definition div := SFdiv prec emax.
(** [x <= y], [x >= y], [x > y]: false as soon as one side is a NaN *)
Definition le (x y : spec_float) : bool := SFleb x y.
Definition ge (x y : spec_float) : bool :=
  match SFcompare x y with
  | Some Gt | Some Eq => true
  | _ => false
  end.
Definition gt (x y : spec_float) : bool :=
  match SFcompare x y with
  | Some Gt => true
  | _ => false
  end.
Definition is_zero (x : spec_float) : bool :=
  match x with
  | S754_zero _ => true
  | _ => false
  end.
(** unary minus, and the literal [1.0] as a [float] *)
Definition neg (x : spec_float) : spec_float := SFopp x.
Definition one : spec_float := S754_finite false 8388608 (-23).
(** neither an infinity nor a NaN *)
Definition is_finite (x : spec_float) : bool :=
  match x with
  | S754_zero _ | S754_finite _ _ _ => true
  | _ => false
  end.
Definition is_nan (x : spec_float) : bool :=
  match x with
  | S754_nan => true
  | _ => false
  end.
(** a value of the [float] format *)
Definition valid (x : spec_float) : bool := valid_binary prec emax x.
(** [x == y] *)
Definition eq (x y : spec_float) : bool := SFeqb x y.
End F32.

(** C [double]: IEEE-754 binary64, with the conversions the C compiler
    inserts between [float] and [double]. *)
Module F64.
Definition prec : Z := 53.
Definition emax : Z := 1024.
Definition add := SFadd prec emax.
Definition mul := SFmul prec emax.
Definition le (x y : spec_float) : bool := SFleb x y.

Definition convert (p e : Z) (x : spec_float) : spec_float :=
  match x with
  | S754_finite s m ex => binary_normalize p e (cond_Zopp s (Zpos m)) ex s
  | _ => x
  end.
(** [float] to [double] (exact) *)
Definition of_f32 (x : spec_float) : spec_float := convert prec emax x.
(** [double] to [float] (rounds) *)
Definition to_f32 (x : spec_float) : spec_float := convert F32.prec F32.emax x.

(** libc [sqrt] *)
Definition sqrt := SFsqrt prec emax.
(** libc [pow(x, 2)]: the square of [x], correctly rounded *)
Definition pow2 (x : spec_float) : spec_float := mul x x.

(** the other [double] operations the code uses, and its literals (a Python
    float is a [double]) *)
Definition div := SFdiv prec emax.
Definition neg (x : spec_float) : spec_float := SFopp x.
Definition one : spec_float := S754_finite false 4503599627370496 (-52).
Definition half : spec_float := S754_finite false 4503599627370496 (-53).
Definition two : spec_float := S754_finite false 4503599627370496 (-51).
End F64.

(** ** ares.math.vector *)
Module Vector.

Record Vector2 := mkVector2 { v2x : spec_float; v2y : spec_float }.
Record Vector3 := mkVector3 { v3x : spec_float; v3y : spec_float; v3z : spec_float }.

(** [Vector2()] and [Vector3()]: every field defaults to [0.0] *)
Definition Vector2_default : Vector2 := mkVector2 F32.zero F32.zero.
Definition Vector3_default : Vector3 := mkVector3 F32.zero F32.zero F32.zero.

Definition length_squared (v : Vector2) : spec_float :=
  F32.add (F32.mul (v2x v) (v2x v)) (F32.mul (v2y v) (v2y v)).

Definition length (v : Vector2) : spec_float :=
  F64.to_f32 (F64.sqrt (F64.of_f32 (length_squared v))).

Definition normalize (v : Vector2) : Vector2 :=
  let l := length v in
  if F32.gt l F32.zero
  then mkVector2 (F32.div (v2x v) l) (F32.div (v2y v) l)
  else Vector2_default.

Definition Vector2_normalize (v : Vector2) : Vector2 := normalize v.

(** the local [length] of [Vector3_normalize] *)
Definition Vector3_length (v : Vector3) : spec_float :=
  F64.to_f32 (F64.sqrt (F64.of_f32
    (F32.add (F32.add (F32.mul (v3x v) (v3x v)) (F32.mul (v3y v) (v3y v)))
             (F32.mul (v3z v) (v3z v))))).

Definition Vector3_normalize (v : Vector3) : Vector3 :=
  let length := Vector3_length v in
  if F32.gt length F32.zero
  then mkVector3 (F32.div (v3x v) length) (F32.div (v3y v) length)
                 (F32.div (v3z v) length)
  else Vector3_default.

(** *** the rest of the module *)

Record Vector4 := mkVector4
  { v4x : spec_float; v4y : spec_float; v4z : spec_float; v4w : spec_float }.

Definition dot (self other : Vector2) : spec_float :=
  F32.add (F32.mul (v2x self) (v2x other)) (F32.mul (v2y self) (v2y other)).

Definition cross (self other : Vector3) : Vector3 :=
  mkVector3
    (F32.sub (F32.mul (v3y self) (v3z other)) (F32.mul (v3z self) (v3y other)))
    (F32.sub (F32.mul (v3z self) (v3x other)) (F32.mul (v3x self) (v3z other)))
    (F32.sub (F32.mul (v3x self) (v3y other)) (F32.mul (v3y self) (v3x other))).

(** [w] defaults to [1.0] *)
Definition from_vector3 (v : Vector3) (w : spec_float) : Vector4 :=
  mkVector4 (v3x v) (v3y v) (v3z v) w.

Definition Vector2_add (a b : Vector2) : Vector2 :=
  mkVector2 (F32.add (v2x a) (v2x b)) (F32.add (v2y a) (v2y b)).

Definition Vector2_subtract (a b : Vector2) : Vector2 :=
  mkVector2 (F32.sub (v2x a) (v2x b)) (F32.sub (v2y a) (v2y b)).

Definition Vector2_multiply (a : Vector2) (scalar : spec_float) : Vector2 :=
  mkVector2 (F32.mul (v2x a) scalar) (F32.mul (v2y a) scalar).

(** the [float] result goes back to Python as a float object, a [double] *)
Definition Vector2_dot (a b : Vector2) : spec_float := F64.of_f32 (dot a b).

Definition Vector3_add (a b : Vector3) : Vector3 :=
  mkVector3 (F32.add (v3x a) (v3x b)) (F32.add (v3y a) (v3y b))
            (F32.add (v3z a) (v3z b)).

Definition Vector3_subtract (a b : Vector3) : Vector3 :=
  mkVector3 (F32.sub (v3x a) (v3x b)) (F32.sub (v3y a) (v3y b))
            (F32.sub (v3z a) (v3z b)).

Definition Vector3_multiply (a : Vector3) (scalar : spec_float) : Vector3 :=
  mkVector3 (F32.mul (v3x a) scalar) (F32.mul (v3y a) scalar)
            (F32.mul (v3z a) scalar).

Definition Vector3_cross (a b : Vector3) : Vector3 := cross a b.

Definition Vector3_dot (a b : Vector3) : spec_float :=
  F64.of_f32
    (F32.add (F32.add (F32.mul (v3x a) (v3x b)) (F32.mul (v3y a) (v3y b)))
             (F32.mul (v3z a) (v3z b))).

(** [Vector2(x, y)] and [Vector3(x, y, z)] called from Python: the arguments
    arrive as Python floats and are rounded to the [float] fields; a field
    read from Python is a Python float again ([F64.of_f32]) *)
Definition Vector2_init (x y : spec_float) : Vector2 :=
  mkVector2 (F64.to_f32 x) (F64.to_f32 y).

Definition Vector3_init (x y z : spec_float) : Vector3 :=
  mkVector3 (F64.to_f32 x) (F64.to_f32 y) (F64.to_f32 z).

End Vector.

(** ** ares.physics.collision *)
Module Collision.
Import Vector.

Record AABB := mkAABB
  { min_x : spec_float; min_y : spec_float; max_x : spec_float; max_y : spec_float }.

Record Sphere := mkSphere { center : Vector3; radius : spec_float }.

Definition aabb_vs_aabb (a b : AABB) : bool :=
  F32.le (min_x a) (max_x b) && F32.ge (max_x a) (min_x b) &&
  F32.le (min_y a) (max_y b) && F32.ge (max_y a) (min_y b).

Definition dist_squared (a b : Sphere) : spec_float :=
  F64.to_f32
    (F64.add
       (F64.add (F64.pow2 (F64.of_f32 (F32.sub (v3x (center a)) (v3x (center b)))))
                (F64.pow2 (F64.of_f32 (F32.sub (v3y (center a)) (v3y (center b))))))
       (F64.pow2 (F64.of_f32 (F32.sub (v3z (center a)) (v3z (center b)))))).

Definition sphere_vs_sphere (a b : Sphere) : bool :=
  let radii_sum := F32.add (radius a) (radius b) in
  F64.le (F64.of_f32 (dist_squared a b)) (F64.pow2 (F64.of_f32 radii_sum)).

Definition point_vs_aabb (x y : spec_float) (box : AABB) : bool :=
  F32.ge x (min_x box) && F32.le x (max_x box) &&
  F32.ge y (min_y box) && F32.le y (max_y box).

(** *** the rest of the module *)

Definition width (self : AABB) : spec_float := F32.sub (max_x self) (min_x self).

Definition height (self : AABB) : spec_float := F32.sub (max_y self) (min_y self).

(** [0.5] is a [double]: the product and the sum are computed in [double] and
    rounded when [Vector2] stores them *)
Definition center_AABB (self : AABB) : Vector2 :=
  mkVector2
    (F64.to_f32 (F64.add (F64.of_f32 (min_x self))
       (F64.mul (F64.of_f32 (F32.sub (max_x self) (min_x self))) F64.half)))
    (F64.to_f32 (F64.add (F64.of_f32 (min_y self))
       (F64.mul (F64.of_f32 (F32.sub (max_y self) (min_y self))) F64.half))).

(** [Sphere.__init__]: a missing centre is the origin *)
Definition Sphere_init (center : option Vector3) (radius : spec_float) : Sphere :=
  match center with
  | None => mkSphere (mkVector3 F32.zero F32.zero F32.zero) radius
  | Some c => mkSphere c radius
  end.

(** [AABB(min_x, min_y, max_x, max_y)] called from Python *)
Definition AABB_init (x0 y0 x1 y1 : spec_float) : AABB :=
  mkAABB (F64.to_f32 x0) (F64.to_f32 y0) (F64.to_f32 x1) (F64.to_f32 y1).

End Collision.

(** ** ares.math.matrix *)
Module Matrix.
Import Vector.

(** the fields [m00] to [m22] of the source are [a00] to [a22] here, the
    fields of [Matrix4x4] keep their names *)
Record Matrix3x3 := mkMatrix3x3
  { a00 : spec_float; a01 : spec_float; a02 : spec_float;
    a10 : spec_float; a11 : spec_float; a12 : spec_float;
    a20 : spec_float; a21 : spec_float; a22 : spec_float }.

Record Matrix4x4 := mkMatrix4x4
  { m00 : spec_float; m01 : spec_float; m02 : spec_float; m03 : spec_float;
    m10 : spec_float; m11 : spec_float; m12 : spec_float; m13 : spec_float;
    m20 : spec_float; m21 : spec_float; m22 : spec_float; m23 : spec_float;
    m30 : spec_float; m31 : spec_float; m32 : spec_float; m33 : spec_float }.

(** [Matrix3x3()] and [Matrix3x3.identity()] *)
Definition Matrix3x3_init : Matrix3x3 :=
  mkMatrix3x3 F32.one F32.zero F32.zero
              F32.zero F32.one F32.zero
              F32.zero F32.zero F32.one.

Definition identity3 : Matrix3x3 := Matrix3x3_init.

(** [Matrix4x4()] and [Matrix4x4.identity()] *)
Definition Matrix4x4_init : Matrix4x4 :=
  mkMatrix4x4 F32.one F32.zero F32.zero F32.zero
              F32.zero F32.one F32.zero F32.zero
              F32.zero F32.zero F32.one F32.zero
              F32.zero F32.zero F32.zero F32.one.

Definition identity4 : Matrix4x4 := Matrix4x4_init.

(** What [__mul__] can be handed: the operands are untyped. *)
Inductive PyObject :=
| PyMatrix3x3 (m : Matrix3x3)
| PyMatrix4x4 (m : Matrix4x4)
| PyOther.

(** [from_values] as [__mul__] calls it: every argument is a Python float, a
    [double], rounded to the [float] field. *)
Definition from_values3 (v00 v01 v02 v10 v11 v12 v20 v21 v22 : spec_float)
  : Matrix3x3 :=
  mkMatrix3x3 (F64.to_f32 v00) (F64.to_f32 v01) (F64.to_f32 v02)
              (F64.to_f32 v10) (F64.to_f32 v11) (F64.to_f32 v12)
              (F64.to_f32 v20) (F64.to_f32 v21) (F64.to_f32 v22).

Definition from_values4
    (v00 v01 v02 v03 v10 v11 v12 v13 v20 v21 v22 v23 v30 v31 v32 v33 : spec_float)
  : Matrix4x4 :=
  mkMatrix4x4 (F64.to_f32 v00) (F64.to_f32 v01) (F64.to_f32 v02) (F64.to_f32 v03)
              (F64.to_f32 v10) (F64.to_f32 v11) (F64.to_f32 v12) (F64.to_f32 v13)
              (F64.to_f32 v20) (F64.to_f32 v21) (F64.to_f32 v22) (F64.to_f32 v23)
              (F64.to_f32 v30) (F64.to_f32 v31) (F64.to_f32 v32) (F64.to_f32 v33).

(** [x0 * y0 + x1 * y1 + x2 * y2] on attributes read from untyped operands:
    Python float arithmetic, in [double], left to right *)
Definition row3 (x0 x1 x2 y0 y1 y2 : spec_float) : spec_float :=
  F64.add (F64.add (F64.mul (F64.of_f32 x0) (F64.of_f32 y0))
                   (F64.mul (F64.of_f32 x1) (F64.of_f32 y1)))
          (F64.mul (F64.of_f32 x2) (F64.of_f32 y2)).

Definition row4 (x0 x1 x2 x3 y0 y1 y2 y3 : spec_float) : spec_float :=
  F64.add (F64.add (F64.add (F64.mul (F64.of_f32 x0) (F64.of_f32 y0))
                            (F64.mul (F64.of_f32 x1) (F64.of_f32 y1)))
                   (F64.mul (F64.of_f32 x2) (F64.of_f32 y2)))
          (F64.mul (F64.of_f32 x3) (F64.of_f32 y3)).

(** [Matrix3x3.__mul__]; [None] is [NotImplemented] *)
Definition Matrix3x3_mul (a b : PyObject) : option Matrix3x3 :=
  match a, b with
  | PyMatrix3x3 a, PyMatrix3x3 b =>
      Some (from_values3
        (row3 (a00 a) (a01 a) (a02 a) (a00 b) (a10 b) (a20 b))
        (row3 (a00 a) (a01 a) (a02 a) (a01 b) (a11 b) (a21 b))
        (row3 (a00 a) (a01 a) (a02 a) (a02 b) (a12 b) (a22 b))
        (row3 (a10 a) (a11 a) (a12 a) (a00 b) (a10 b) (a20 b))
        (row3 (a10 a) (a11 a) (a12 a) (a01 b) (a11 b) (a21 b))
        (row3 (a10 a) (a11 a) (a12 a) (a02 b) (a12 b) (a22 b))
        (row3 (a20 a) (a21 a) (a22 a) (a00 b) (a10 b) (a20 b))
        (row3 (a20 a) (a21 a) (a22 a) (a01 b) (a11 b) (a21 b))
        (row3 (a20 a) (a21 a) (a22 a) (a02 b) (a12 b) (a22 b)))
  | _, _ => None
  end.

(** [Matrix4x4.__mul__]; [None] is [NotImplemented] *)
Definition Matrix4x4_mul (a b : PyObject) : option Matrix4x4 :=
  match a, b with
  | PyMatrix4x4 a, PyMatrix4x4 b =>
      Some (from_values4
        (row4 (m00 a) (m01 a) (m02 a) (m03 a) (m00 b) (m10 b) (m20 b) (m30 b))
        (row4 (m00 a) (m01 a) (m02 a) (m03 a) (m01 b) (m11 b) (m21 b) (m31 b))
        (row4 (m00 a) (m01 a) (m02 a) (m03 a) (m02 b) (m12 b) (m22 b) (m32 b))
        (row4 (m00 a) (m01 a) (m02 a) (m03 a) (m03 b) (m13 b) (m23 b) (m33 b))
        (row4 (m10 a) (m11 a) (m12 a) (m13 a) (m00 b) (m10 b) (m20 b) (m30 b))
        (row4 (m10 a) (m11 a) (m12 a) (m13 a) (m01 b) (m11 b) (m21 b) (m31 b))
        (row4 (m10 a) (m11 a) (m12 a) (m13 a) (m02 b) (m12 b) (m22 b) (m32 b))
        (row4 (m10 a) (m11 a) (m12 a) (m13 a) (m03 b) (m13 b) (m23 b) (m33 b))
        (row4 (m20 a) (m21 a) (m22 a) (m23 a) (m00 b) (m10 b) (m20 b) (m30 b))
        (row4 (m20 a) (m21 a) (m22 a) (m23 a) (m01 b) (m11 b) (m21 b) (m31 b))
        (row4 (m20 a) (m21 a) (m22 a) (m23 a) (m02 b) (m12 b) (m22 b) (m32 b))
        (row4 (m20 a) (m21 a) (m22 a) (m23 a) (m03 b) (m13 b) (m23 b) (m33 b))
        (row4 (m30 a) (m31 a) (m32 a) (m33 a) (m00 b) (m10 b) (m20 b) (m30 b))
        (row4 (m30 a) (m31 a) (m32 a) (m33 a) (m01 b) (m11 b) (m21 b) (m31 b))
        (row4 (m30 a) (m31 a) (m32 a) (m33 a) (m02 b) (m12 b) (m22 b) (m32 b))
        (row4 (m30 a) (m31 a) (m32 a) (m33 a) (m03 b) (m13 b) (m23 b) (m33 b)))
  | _, _ => None
  end.

(** [Matrix4x4.perspective]; libc's [tan] is taken as a parameter. [f] and
    [range_inv] are computed in [double] and stored as [float];
    [2.0 * near * far * range_inv] is a [double] product, rounded by the
    field. *)
Definition perspective (tan : spec_float -> spec_float)
    (fov_y aspect near far : spec_float) : Matrix4x4 :=
  let f := F64.to_f32 (F64.div F64.one (tan (F64.div (F64.of_f32 fov_y) F64.two))) in
  let range_inv := F64.to_f32 (F64.div F64.one (F64.of_f32 (F32.sub near far))) in
  mkMatrix4x4
    (F32.div f aspect) F32.zero F32.zero F32.zero
    F32.zero f F32.zero F32.zero
    F32.zero F32.zero (F32.mul (F32.add near far) range_inv)
      (F64.to_f32 (F64.mul (F64.mul (F64.mul F64.two (F64.of_f32 near))
                                    (F64.of_f32 far))
                           (F64.of_f32 range_inv)))
    F32.zero F32.zero (F32.neg F32.one) F32.zero.

(** [Matrix4x4.look_at]; [Vector3.dot] hands back a Python float, negated
    as such and rounded by the field. *)
Definition look_at (eye target up : Vector3) : Matrix4x4 :=
  let f := Vector3_normalize (Vector3_subtract target eye) in
  let s := Vector3_normalize (Vector3_cross f up) in
  let u := Vector3_cross s f in
  mkMatrix4x4
    (v3x s) (v3y s) (v3z s) (F64.to_f32 (F64.neg (Vector3_dot s eye)))
    (v3x u) (v3y u) (v3z u) (F64.to_f32 (F64.neg (Vector3_dot u eye)))
    (F32.neg (v3x f)) (F32.neg (v3y f)) (F32.neg (v3z f))
      (F64.to_f32 (Vector3_dot f eye))
    F32.zero F32.zero F32.zero F32.one.

End Matrix.

(** ** ECS core: errors, results, entities *)

Inductive Error :=
| StaleEntity
| DuplicateComponent
| ComponentNotFound
| UnknownComponentType
| SystemExecutionFailure.

Inductive Result (A : Type) :=
| Ok (a : A)
| Err (e : Error).
Arguments Ok {A} a.
Arguments Err {A} e.

(** Modelled from the spec: the error kinds and results of section 7 (above)
    and the Entity of section 3, a slot number and a generation; the ECS
    core is described by the spec and absent from the sources. *)
Record Entity := mkEntity { index : nat; generation : nat }.

#[global] Instance Entity_eq_dec : EqDecision Entity.
Proof. solve_decision. Defined.

#[global] Instance Error_eq_dec : EqDecision Error.
Proof. solve_decision. Defined.

(** Modelled from the spec: a component type is identified by a stable key
    (section 3); the keys are names here. *)
Abbreviation TypeKey := string.

(** ** Entity Registry *)
Module Registry.

(** Modelled from the spec: the Entity Registry (section 4.1), absent from
    the sources. One stored generation per slot and the free list of
    destroyed slots, most recently destroyed first. *)
Record t := mk { generations : list nat; free_list : list nat }.

(** Modelled from the spec: the registry of a fresh World, with no slot. *)
Definition empty : t := mk [] [].

(** Modelled from the spec: [isAlive] (section 4.1), true iff the index is
    within bounds and its stored generation equals the entity's. *)
Definition isAlive (r : t) (e : Entity) : bool :=
  match generations r !! index e with
  | Some g => Nat.eqb g (generation e)
  | None => false
  end.

(** Modelled from the spec: [create] (section 4.1), which reuses a slot of
    the free list when there is one and grows the index space otherwise. *)
Definition create (r : t) : Entity * t :=
  match free_list r with
  | i :: rest => (mkEntity i (default 0 (generations r !! i)), mk (generations r) rest)
  | [] => (mkEntity (length (generations r)) 0, mk (generations r ++ [0]) [])
  end.

(** Modelled from the spec: the registry half of [destroy] (section 4.1):
    [StaleEntity] on a generation mismatch, otherwise the slot's generation
    is incremented and the index pushed onto the free list. *)
Definition destroy (r : t) (e : Entity) : t * Result unit :=
  if isAlive r e
  then (mk (<[index e := S (generation e)]> (generations r)) (index e :: free_list r), Ok tt)
  else (r, Err StaleEntity).

(** Modelled from the spec: the entities of the registry, for the query
    engine: slot by slot, the handle [isAlive] accepts. *)
Definition entities (r : t) : list Entity := imap mkEntity (generations r).

End Registry.

(** ** Component Store *)
Module Store.
Section Store.
Context {C : Type}.

(** Modelled from the spec: the Component Store (sections 3 and 4.2), absent
    from the sources: the dense array of components, the reverse mapping
    from slot to owning entity, and the mapping from entity index to slot. *)
Record t := mk { dense : list C; owner : list Entity; slot_of : gmap nat nat }.

(** Modelled from the spec: the store of a newly registered component type,
    and the number of packed entries of a store (section 4.3 compares the
    stores by it). *)
Definition empty : t := mk [] [] ∅.

Definition size (s : t) : nat := length (dense s).

(** Modelled from the spec: [has] (section 4.2), through the index
    mapping. *)
Definition has (s : t) (e : Entity) : bool :=
  match slot_of s !! index e with
  | Some _ => true
  | None => false
  end.

(** Modelled from the spec: [get] (section 4.2), through the index mapping;
    nothing when the entity has no component here. *)
Definition get (s : t) (e : Entity) : option C :=
  match slot_of s !! index e with
  | Some i => dense s !! i
  | None => None
  end.

(** Modelled from the spec: [add] (section 4.2): rejects a second component
    for the entity, otherwise inserts at the end of the dense array and
    records both mappings. *)
Definition add (s : t) (e : Entity) (c : C) : t * Result unit :=
  if has s e then (s, Err DuplicateComponent)
  else (mk (dense s ++ [c]) (owner s ++ [e])
           (<[index e := length (dense s)]> (slot_of s)), Ok tt).

(** Modelled from the spec: [remove] (section 4.2): [ComponentNotFound] when
    absent; otherwise the last occupied slot is moved into the target slot,
    the last slot popped, and the moved entity's index mapping updated. (A
    mapping that points outside the arrays, which a packed store never has,
    is reported as absent.) *)
Definition remove (s : t) (e : Entity) : t * Result unit :=
  match slot_of s !! index e with
  | None => (s, Err ComponentNotFound)
  | Some i =>
      let last := pred (length (dense s)) in
      match dense s !! last, owner s !! last with
      | Some c_last, Some e_last =>
          (mk (take last (<[i := c_last]> (dense s)))
              (take last (<[i := e_last]> (owner s)))
              (delete (index e) (<[index e_last := i]> (slot_of s))), Ok tt)
      | _, _ => (s, Err ComponentNotFound)
      end
  end.

(** Modelled from the spec: writing through the reference [get] returns
    (section 2: a system mutates component data in place via the store). *)
Definition set (s : t) (e : Entity) (c : C) : t * Result unit :=
  match slot_of s !! index e with
  | Some i => (mk (<[i := c]> (dense s)) (owner s) (slot_of s), Ok tt)
  | None => (s, Err ComponentNotFound)
  end.

(** Modelled from the spec: [iterate] (section 4.2), the packed entries in
    slot order. *)
Definition iterate (s : t) : list (Entity * C) := zip (owner s) (dense s).

End Store.
Arguments t : clear implicits.
End Store.

(** A request on one Component Store, and the store after a sequence of
    requests from the empty store. *)
Inductive StoreOp (C : Type) :=
| SAdd (e : Entity) (c : C)
| SRemove (e : Entity).
Arguments SAdd {C} e c.
Arguments SRemove {C} e.

Definition store_step {C} (s : Store.t C) (o : StoreOp C) : Store.t C :=
  match o with
  | SAdd e c => fst (Store.add s e c)
  | SRemove e => fst (Store.remove s e)
  end.

Definition store_run {C} (ops : list (StoreOp C)) : Store.t C :=
  fold_left store_step ops Store.empty.

(** Reference ledger of the entities holding the component after a sequence
    of requests: an accepted [add] enters the entity, a [remove] strikes the
    entry of its index. It keeps no slots and no index mapping. *)
Definition ledger_step {C} (held : list Entity) (o : StoreOp C) : list Entity :=
  match o with
  | SAdd e _ =>
      if bool_decide (index e ∈ index <$> held) then held else held ++ [e]
  | SRemove e => filter (fun e' => index e' <> index e) held
  end.

Definition holders {C} (ops : list (StoreOp C)) : list Entity :=
  fold_left ledger_step ops [].

(** The same ledger kept by whole handles, and the request sequences in
    which no two handles share a slot (as the handles of live entities). *)
Definition ledger_step_by_handle {C} (held : list Entity) (o : StoreOp C)
  : list Entity :=
  match o with
  | SAdd e _ => if bool_decide (e ∈ held) then held else held ++ [e]
  | SRemove e => filter (fun e' => e' <> e) held
  end.

Definition holders_by_handle {C} (ops : list (StoreOp C)) : list Entity :=
  fold_left ledger_step_by_handle ops [].

Definition handle_of {C} (o : StoreOp C) : Entity :=
  match o with
  | SAdd e _ => e
  | SRemove e => e
  end.

Definition distinct_slots {C} (ops : list (StoreOp C)) : Prop :=
  forall e e', e ∈ handle_of <$> ops -> e' ∈ handle_of <$> ops ->
    index e = index e' -> e = e'.

(** No unused slot: both arrays have the same length, every slot's owner is
    mapped to that slot, and every mapping points at a slot of that owner. *)
Definition dense_ok {C} (s : Store.t C) : Prop :=
  length (Store.dense s) = length (Store.owner s) ∧
  Forall (fun ie => Store.slot_of s !! index (snd ie) = Some (fst ie))
         (imap pair (Store.owner s)) ∧
  map_Forall (fun k i => index <$> Store.owner s !! i = Some k) (Store.slot_of s).

#[global] Instance dense_ok_dec {C} (s : Store.t C) : Decision (dense_ok s).
Proof. unfold dense_ok. apply _. Defined.

(** ** World, systems and the scheduler *)

(** Modelled from the spec: an entry of the pending-operations queue
    (section 4.5), a structural operation waiting for the tick boundary. *)
Inductive Op (C : Type) :=
| OpDestroy (e : Entity)
| OpRemove (T : TypeKey) (e : Entity)
| OpAdd (T : TypeKey) (e : Entity) (c : C).
Arguments OpDestroy {C} e.
Arguments OpRemove {C} T e.
Arguments OpAdd {C} T e c.

(** Modelled from the spec: how a system's turn ends (section 4.4),
    normally or by raising a domain error. *)
Inductive Outcome :=
| Completed
| Raised (msg : string).

(** Modelled from the spec: [deltaTime] is a float number of seconds
    (section 6). *)
Abbreviation DeltaTime := spec_float.

Section World.
Context {C : Type}.

(** Modelled from the spec: what a system does with its World handle
    (sections 2, 4.4, 4.5 and 6), as the tree of its calls; every call hands
    its result to the rest of the system. [ForEach] is a query whose result
    the system iterates over, running [body] on every entity. *)
Inductive Prog :=
| Ret
| Raise (msg : string)
| CreateEntity (k : Entity -> Prog)
| DestroyEntity (e : Entity) (k : Result unit -> Prog)
| AddComponent (T : TypeKey) (e : Entity) (c : C) (k : Result unit -> Prog)
| RemoveComponent (T : TypeKey) (e : Entity) (k : Result unit -> Prog)
| GetComponent (T : TypeKey) (e : Entity) (k : Result (option C) -> Prog)
| SetComponent (T : TypeKey) (e : Entity) (c : C) (k : Result unit -> Prog)
| Query (sig : gset TypeKey) (k : Result (list Entity) -> Prog)
| ForEach (sig : gset TypeKey) (body : Entity -> Prog) (k : Result unit -> Prog).

(** Modelled from the spec: a System (section 3), a named unit of logic. *)
Record System := mkSystem { sys_name : string; sys_logic : DeltaTime -> Prog }.

(** Modelled from the spec: an entry of the ordered execution list
    (section 4.4), a registered system with its order key. *)
Record Entry := mkEntry { entry_system : System; entry_key : Z }.

(** Modelled from the spec: the World (sections 3 and 4.5), absent from the
    sources: the registry, one store per registered component type, the
    ordered list of registered systems, the pending-operations queue, and
    the number of query iterations in progress. *)
Record World := mkWorld
  { registry : Registry.t;
    stores : gmap TypeKey (Store.t C);
    systems : list Entry;
    pending : list (Op C);
    iterating : nat }.

(** Modelled from the spec: the World as created at engine start, and the
    World with one of its parts replaced. *)
Definition empty_world : World := mkWorld Registry.empty ∅ [] [] 0.

Definition with_registry (w : World) (r : Registry.t) : World :=
  mkWorld r (stores w) (systems w) (pending w) (iterating w).
Definition with_stores (w : World) (m : gmap TypeKey (Store.t C)) : World :=
  mkWorld (registry w) m (systems w) (pending w) (iterating w).
Definition with_systems (w : World) (l : list Entry) : World :=
  mkWorld (registry w) (stores w) l (pending w) (iterating w).
Definition with_pending (w : World) (q : list (Op C)) : World :=
  mkWorld (registry w) (stores w) (systems w) q (iterating w).
Definition with_iterating (w : World) (n : nat) : World :=
  mkWorld (registry w) (stores w) (systems w) (pending w) n.

(** Modelled from the spec: a deferred operation joins the end of the
    queue (section 4.5). *)
Definition defer (w : World) (o : Op C) : World := with_pending w (pending w ++ [o]).

(** Modelled from the spec: liveness of a handle in the World's registry. *)
Definition isAlive (w : World) (e : Entity) : bool := Registry.isAlive (registry w) e.

(** Modelled from the spec: the World holds one store per registered
    component type (section 3); a type gets its empty store when it is
    registered. *)
Definition registerComponent (w : World) (T : TypeKey) : World :=
  match stores w !! T with
  | Some _ => w
  | None => with_stores w (<[T := Store.empty]> (stores w))
  end.

(** Modelled from the spec: [createEntity] (section 4.5). *)
Definition createEntity (w : World) : World * Entity :=
  let '(e, r) := Registry.create (registry w) in (with_registry w r, e).

(** Modelled from the spec: [destroyEntity] (section 4.5): a stale handle is
    refused at once, the destruction itself waits in the queue. *)
Definition destroyEntity (w : World) (e : Entity) : World * Result unit :=
  if isAlive w e then (defer w (OpDestroy e), Ok tt) else (w, Err StaleEntity).

(** Modelled from the spec: [addComponent] (section 4.5): errors go back to
    the caller at once; the add is queued while a query iteration is in
    progress and done in place otherwise. *)
Definition addComponent (w : World) (T : TypeKey) (e : Entity) (c : C)
  : World * Result unit :=
  if isAlive w e then
    match stores w !! T with
    | None => (w, Err UnknownComponentType)
    | Some s =>
        if Store.has s e then (w, Err DuplicateComponent)
        else if Nat.ltb 0 (iterating w) then (defer w (OpAdd T e c), Ok tt)
        else (with_stores w (<[T := fst (Store.add s e c)]> (stores w)), Ok tt)
    end
  else (w, Err StaleEntity).

(** Modelled from the spec: [removeComponent] (section 4.5): errors go back
    to the caller at once, the removal waits in the queue. *)
Definition removeComponent (w : World) (T : TypeKey) (e : Entity)
  : World * Result unit :=
  if isAlive w e then
    match stores w !! T with
    | None => (w, Err UnknownComponentType)
    | Some s =>
        if Store.has s e then (defer w (OpRemove T e), Ok tt)
        else (w, Err ComponentNotFound)
    end
  else (w, Err StaleEntity).

(** Modelled from the spec: [getComponent] (section 4.5). *)
Definition getComponent (w : World) (T : TypeKey) (e : Entity)
  : Result (option C) :=
  if isAlive w e then
    match stores w !! T with
    | None => Err UnknownComponentType
    | Some s => Ok (Store.get s e)
    end
  else Err StaleEntity.

(** Modelled from the spec: a system mutates component data in place
    (section 2); the write goes to the entity's slot and is not structural. *)
Definition setComponent (w : World) (T : TypeKey) (e : Entity) (c : C)
  : World * Result unit :=
  if isAlive w e then
    match stores w !! T with
    | None => (w, Err UnknownComponentType)
    | Some s =>
        if Store.has s e
        then (with_stores w (<[T := fst (Store.set s e c)]> (stores w)), Ok tt)
        else (w, Err ComponentNotFound)
    end
  else (w, Err StaleEntity).

(** ** Query Engine *)

(** Modelled from the spec: the stores of the signature's types, or nothing
    when one is unregistered (section 7, [UnknownComponentType]). *)
Definition signature_stores (w : World) (sig : gset TypeKey)
  : option (list (Store.t C)) :=
  mapM (fun T => stores w !! T) (elements sig).

(** Modelled from the spec: the smallest store of [s :: rest], which
    drives the query, and the remaining ones (section 4.3). *)
Fixpoint pick_smallest (s : Store.t C) (rest : list (Store.t C))
  : Store.t C * list (Store.t C) :=
  match rest with
  | [] => (s, [])
  | s' :: rest' =>
      if Nat.ltb (Store.size s') (Store.size s)
      then let '(m, others) := pick_smallest s' rest' in (m, s :: others)
      else let '(m, others) := pick_smallest s rest' in (m, s' :: others)
  end.

(** Modelled from the spec: [query] (section 4.3): the smallest store of the
    signature drives, every candidate is tested with [has] on the remaining
    stores. The empty signature, which leaves no store to drive, is answered
    by the contract alone (every entity has all of no types). *)
Definition query (w : World) (sig : gset TypeKey) : Result (list Entity) :=
  match signature_stores w sig with
  | None => Err UnknownComponentType
  | Some [] => Ok (Registry.entities (registry w))
  | Some (s :: rest) =>
      let '(driving, others) := pick_smallest s rest in
      Ok (filter (fun e => forallb (fun s' => Store.has s' e) others = true)
                 (Store.owner driving))
  end.

(** Reference for [query]: the component types an entity holds, found by
    scanning every store's entries, and the naive scan of all entities. *)
Definition held_types (w : World) (e : Entity) : gset TypeKey :=
  dom (filter (fun Ts => e ∈ Store.owner (snd Ts)) (stores w)).

Definition naive_query (w : World) (sig : gset TypeKey) : list Entity :=
  filter (fun e => sig ⊆ held_types w e) (Registry.entities (registry w)).

(** ** Tick boundary *)

(** Modelled from the spec: [destroy] reaching every store (section 4.1). *)
Definition apply_destroy (w : World) (e : Entity) : World :=
  match Registry.destroy (registry w) e with
  | (r, Ok _) =>
      with_stores (with_registry w r) ((fun s => fst (Store.remove s e)) <$> stores w)
  | (_, Err _) => w
  end.

(** Modelled from the spec: one queued operation, applied (section 4.5); a
    request that no longer applies (its entity died, or the component came
    or went meanwhile) leaves the World as it is. *)
Definition apply_op (w : World) (o : Op C) : World :=
  match o with
  | OpDestroy e => apply_destroy w e
  | OpRemove T e =>
      if isAlive w e then
        match stores w !! T with
        | Some s => with_stores w (<[T := fst (Store.remove s e)]> (stores w))
        | None => w
        end
      else w
  | OpAdd T e c =>
      if isAlive w e then
        match stores w !! T with
        | Some s => with_stores w (<[T := fst (Store.add s e c)]> (stores w))
        | None => w
        end
      else w
  end.

(** Modelled from the spec: the tick boundary (sections 4.5 and 5): the
    queue is applied in request order and left empty. *)
Definition flush (w : World) : World :=
  with_pending (fold_left apply_op (pending w) w) [].

(** ** Running a system *)

(** Modelled from the spec: a query iteration begins and ends (section
    4.5, an in-progress query iteration). *)
Definition enter (w : World) : World := with_iterating w (S (iterating w)).
Definition leave (w : World) : World := with_iterating w (pred (iterating w)).

(** Modelled from the spec: the body of an iteration runs on every entity
    of the sequence, until one run raises. *)
Fixpoint for_each {A} (f : A -> World -> World * Outcome) (l : list A) (w : World)
  : World * Outcome :=
  match l with
  | [] => (w, Completed)
  | a :: l' =>
      match f a w with
      | (w', Completed) => for_each f l' w'
      | stopped => stopped
      end
  end.

(** Modelled from the spec: a system's turn (sections 4.4 and 4.5): its
    calls reach the World one after the other; what was done before an
    error is raised stays done. *)
Fixpoint exec (p : Prog) (w : World) : World * Outcome :=
  match p with
  | Ret => (w, Completed)
  | Raise msg => (w, Raised msg)
  | CreateEntity k => let '(w', e) := createEntity w in exec (k e) w'
  | DestroyEntity e k => let '(w', r) := destroyEntity w e in exec (k r) w'
  | AddComponent T e c k => let '(w', r) := addComponent w T e c in exec (k r) w'
  | RemoveComponent T e k => let '(w', r) := removeComponent w T e in exec (k r) w'
  | GetComponent T e k => exec (k (getComponent w T e)) w
  | SetComponent T e c k => let '(w', r) := setComponent w T e c in exec (k r) w'
  | Query sig k => exec (k (query w sig)) w
  | ForEach sig body k =>
      match query w sig with
      | Err err => exec (k (Err err)) w
      | Ok ents =>
          match for_each (fun e w0 => exec (body e) w0) ents (enter w) with
          | (w', Completed) => exec (k (Ok tt)) (leave w')
          | (w', Raised msg) => (leave w', Raised msg)
          end
      end
  end.

(** ** System Scheduler *)

(** Modelled from the spec: [register] (section 4.4): the new system goes
    behind every registered system whose key is not greater than its own. *)
Fixpoint register (s : System) (key : Z) (l : list Entry) : list Entry :=
  match l with
  | [] => [mkEntry s key]
  | x :: l' =>
      if Z.leb (entry_key x) key then x :: register s key l'
      else mkEntry s key :: x :: l'
  end.

(** Modelled from the spec: [registerSystem] (section 4.5). *)
Definition registerSystem (w : World) (s : System) (order : Z) : World :=
  with_systems w (register s order (systems w)).

(** the execution list after a sequence of registrations *)
Definition schedule (regs : list (System * Z)) : list Entry :=
  fold_left (fun l sk => register (fst sk) (snd sk) l) regs [].

(** Modelled from the spec: the systems' turns of [tick] (section 4.4): each
    system runs once, in list order; a failure is recorded under the
    system's name and the next system runs. The report lists every turn. *)
Fixpoint run_systems (l : list Entry) (dt : DeltaTime) (w : World)
  : World * list (string * Outcome) :=
  match l with
  | [] => (w, [])
  | x :: l' =>
      let '(w1, o) := exec (sys_logic (entry_system x) dt) w in
      let '(w2, report) := run_systems l' dt w1 in
      (w2, (sys_name (entry_system x), o) :: report)
  end.

(** Modelled from the spec: the recorded failures of a report, each with
    the offending system's name (section 7). *)
Definition failures (report : list (string * Outcome)) : list (string * string) :=
  omap (fun no => match snd no with
                  | Raised msg => Some (fst no, msg)
                  | Completed => None
                  end) report.

(** Modelled from the spec: [tick] (sections 4.4 and 4.5): the systems'
    turns, then the tick boundary. *)
Definition tick (w : World) (dt : DeltaTime) : World * list (string * Outcome) :=
  let '(w1, report) := run_systems (systems w) dt w in (flush w1, report).

(** World consistency: every store is packed and holds live entities only. *)
Definition world_ok (w : World) : Prop :=
  map_Forall (fun _ s => dense_ok s ∧
                         Forall (fun e => isAlive w e = true) (Store.owner s))
             (stores w).

#[global] Instance world_ok_dec (w : World) : Decision (world_ok w).
Proof. unfold world_ok. apply _. Defined.

End World.
Arguments Prog : clear implicits.
Arguments System : clear implicits.
Arguments Entry : clear implicits.
Arguments World : clear implicits.

(** ** Auxiliary notions for the statements *)

(** two floats of the same magnitude *)
Definition same_abs (x y : spec_float) : Prop := SFabs x = SFabs y.

(** a number (not a NaN) of sign [s] *)
Definition signed (s : bool) (x : spec_float) : Prop :=
  match x with
  | S754_zero s' | S754_infinity s' | S754_finite s' _ _ => s' = s
  | S754_nan => False
  end.

(** [x'] is [x] negated, or both are the [+0] of an exact cancellation *)
Definition negated (x x' : spec_float) : Prop :=
  x' = F32.neg x \/ (x = F32.zero /\ x' = F32.zero).

(** the place of a number in the order of the comparisons: sign class,
    then exponent, then mantissa *)
Definition rank (x : spec_float) : option (Z * Z * Z) :=
  match x with
  | S754_nan => None
  | S754_zero _ => Some (0, 0, 0)%Z
  | S754_infinity false => Some (2, 0, 0)%Z
  | S754_infinity true => Some (-2, 0, 0)%Z
  | S754_finite false m e => Some (1, e, Zpos m)%Z
  | S754_finite true m e => Some (-1, - e, Zneg m)%Z
  end.

Definition rank_le (a b : Z * Z * Z) : Prop :=
  (fst (fst a) < fst (fst b) \/
   (fst (fst a) = fst (fst b) /\
    (snd (fst a) < snd (fst b) \/
     (snd (fst a) = snd (fst b) /\ snd a <= snd b))))%Z.

(** a finite value of the [float] format *)
Definition finite_float (x : spec_float) : bool := F32.valid x && F32.is_finite x.

(** matrices compared entry by entry, with [==] *)
Definition Matrix3x3_eq (a b : Matrix.Matrix3x3) : bool :=
  F32.eq (Matrix.a00 a) (Matrix.a00 b) && F32.eq (Matrix.a01 a) (Matrix.a01 b) &&
  F32.eq (Matrix.a02 a) (Matrix.a02 b) && F32.eq (Matrix.a10 a) (Matrix.a10 b) &&
  F32.eq (Matrix.a11 a) (Matrix.a11 b) && F32.eq (Matrix.a12 a) (Matrix.a12 b) &&
  F32.eq (Matrix.a20 a) (Matrix.a20 b) && F32.eq (Matrix.a21 a) (Matrix.a21 b) &&
  F32.eq (Matrix.a22 a) (Matrix.a22 b).

Definition Matrix4x4_eq (a b : Matrix.Matrix4x4) : bool :=
  F32.eq (Matrix.m00 a) (Matrix.m00 b) && F32.eq (Matrix.m01 a) (Matrix.m01 b) &&
  F32.eq (Matrix.m02 a) (Matrix.m02 b) && F32.eq (Matrix.m03 a) (Matrix.m03 b) &&
  F32.eq (Matrix.m10 a) (Matrix.m10 b) && F32.eq (Matrix.m11 a) (Matrix.m11 b) &&
  F32.eq (Matrix.m12 a) (Matrix.m12 b) && F32.eq (Matrix.m13 a) (Matrix.m13 b) &&
  F32.eq (Matrix.m20 a) (Matrix.m20 b) && F32.eq (Matrix.m21 a) (Matrix.m21 b) &&
  F32.eq (Matrix.m22 a) (Matrix.m22 b) && F32.eq (Matrix.m23 a) (Matrix.m23 b) &&
  F32.eq (Matrix.m30 a) (Matrix.m30 b) && F32.eq (Matrix.m31 a) (Matrix.m31 b) &&
  F32.eq (Matrix.m32 a) (Matrix.m32 b) && F32.eq (Matrix.m33 a) (Matrix.m33 b).

(** every entry is a finite [float] *)
Definition finite3 (m : Matrix.Matrix3x3) : bool :=
  finite_float (Matrix.a00 m) && finite_float (Matrix.a01 m) &&
  finite_float (Matrix.a02 m) && finite_float (Matrix.a10 m) &&
  finite_float (Matrix.a11 m) && finite_float (Matrix.a12 m) &&
  finite_float (Matrix.a20 m) && finite_float (Matrix.a21 m) &&
  finite_float (Matrix.a22 m).

Definition finite4 (m : Matrix.Matrix4x4) : bool :=
  finite_float (Matrix.m00 m) && finite_float (Matrix.m01 m) &&
  finite_float (Matrix.m02 m) && finite_float (Matrix.m03 m) &&
  finite_float (Matrix.m10 m) && finite_float (Matrix.m11 m) &&
  finite_float (Matrix.m12 m) && finite_float (Matrix.m13 m) &&
  finite_float (Matrix.m20 m) && finite_float (Matrix.m21 m) &&
  finite_float (Matrix.m22 m) && finite_float (Matrix.m23 m) &&
  finite_float (Matrix.m30 m) && finite_float (Matrix.m31 m) &&
  finite_float (Matrix.m32 m) && finite_float (Matrix.m33 m).

(** every entry is a value of the [float] format *)
Definition valid3 (m : Matrix.Matrix3x3) : bool :=
  F32.valid (Matrix.a00 m) && F32.valid (Matrix.a01 m) && F32.valid (Matrix.a02 m) &&
  F32.valid (Matrix.a10 m) && F32.valid (Matrix.a11 m) && F32.valid (Matrix.a12 m) &&
  F32.valid (Matrix.a20 m) && F32.valid (Matrix.a21 m) && F32.valid (Matrix.a22 m).

Definition valid4 (m : Matrix.Matrix4x4) : bool :=
  F32.valid (Matrix.m00 m) && F32.valid (Matrix.m01 m) &&
  F32.valid (Matrix.m02 m) && F32.valid (Matrix.m03 m) &&
  F32.valid (Matrix.m10 m) && F32.valid (Matrix.m11 m) &&
  F32.valid (Matrix.m12 m) && F32.valid (Matrix.m13 m) &&
  F32.valid (Matrix.m20 m) && F32.valid (Matrix.m21 m) &&
  F32.valid (Matrix.m22 m) && F32.valid (Matrix.m23 m) &&
  F32.valid (Matrix.m30 m) && F32.valid (Matrix.m31 m) &&
  F32.valid (Matrix.m32 m) && F32.valid (Matrix.m33 m).

(** the [double] [u] stands for the finite [float] [y]: both are zeros, or
    [u] is a finite number that rounds to [y] *)
Definition stands_for (u y : spec_float) : Prop :=
  (F32.is_zero u = true /\ F32.is_zero y = true) \/
  (exists s m e, u = S754_finite s m e /\ F32.is_zero y = false /\
                 F32.is_nan y = false /\ F64.to_f32 u = y).

(** A request on the Entity Registry. *)
Inductive RegOp :=
| RCreate
| RDestroy (e : Entity).

Definition reg_step (r : Registry.t) (o : RegOp) : Registry.t :=
  match o with
  | RCreate => snd (Registry.create r)
  | RDestroy e => fst (Registry.destroy r e)
  end.

Definition reg_run (ops : list RegOp) (r : Registry.t) : Registry.t :=
  fold_left reg_step ops r.

(** the slot of [e] carries a generation beyond [e]'s *)
Definition superseded (r : Registry.t) (e : Entity) : Prop :=
  exists g, Registry.generations r !! index e = Some g /\ generation e < g.


(** A structural request through the World API, the operation it queues, and
    whether the World defers it. *)
Inductive Request (C : Type) :=
| ReqDestroy (e : Entity)
| ReqRemove (T : TypeKey) (e : Entity)
| ReqAdd (T : TypeKey) (e : Entity) (c : C).
Arguments ReqDestroy {C} e.
Arguments ReqRemove {C} T e.
Arguments ReqAdd {C} T e c.

Definition request {C} (w : World C) (rq : Request C) : World C * Result unit :=
  match rq with
  | ReqDestroy e => destroyEntity w e
  | ReqRemove T e => removeComponent w T e
  | ReqAdd T e c => addComponent w T e c
  end.

Definition op_of {C} (rq : Request C) : Op C :=
  match rq with
  | ReqDestroy e => OpDestroy e
  | ReqRemove T e => OpRemove T e
  | ReqAdd T e c => OpAdd T e c
  end.

Definition deferred {C} (w : World C) (rq : Request C) : bool :=
  match rq with
  | ReqAdd _ _ _ => Nat.ltb 0 (iterating w)
  | _ => true
  end.

(** What happens between a request and the tick boundary: systems (or the
    rest of one) run, query iterations begin and end. *)
Inductive PhaseStep (C : Type) :=
| Run (p : Prog C)
| Enter
| Leave.
Arguments Run {C} p.
Arguments Enter {C}.
Arguments Leave {C}.

Definition phase_step {C} (w : World C) (st : PhaseStep C) : World C :=
  match st with
  | Run p => fst (exec p w)
  | Enter => enter w
  | Leave => leave w
  end.

Definition run_phase {C} (steps : list (PhaseStep C)) (w : World C) : World C :=
  fold_left phase_step steps w.

(** Within the systems' turns a World only grows: slots keep their
    generation, stores keep their entries, the queue keeps its operations,
    and no add is queued for an entity that held the component before. *)
Definition grows {C} (w w' : World C) : Prop :=
  Registry.generations (registry w) `prefix_of` Registry.generations (registry w') /\
  (forall T s, stores w !! T = Some s ->
     exists s', stores w' !! T = Some s' /\
       Store.owner s ⊆ Store.owner s' /\ Store.slot_of s ⊆ Store.slot_of s') /\
  exists extra, pending w' = pending w ++ extra /\
    forall T e c s, OpAdd T e c ∈ extra -> stores w !! T = Some s -> Store.has s e = false.

(** the entity holds no component of type [T] *)
Definition lacks {C} (w : World C) (T : TypeKey) (e : Entity) : Prop :=
  forall s, stores w !! T = Some s -> e ∉ Store.owner s.

(** the slot of [e] carries [e]'s generation or a later one *)
Definition issued (r : Registry.t) (e : Entity) : Prop :=
  exists g, Registry.generations r !! index e = Some g /\ generation e <= g.


(** Two systems' programs that make the same calls and hand every result to
    programs that again make the same calls. *)
Inductive prog_eq {C : Type} : Prog C -> Prog C -> Prop :=
| prog_eq_Ret : prog_eq Ret Ret
| prog_eq_Raise msg : prog_eq (Raise msg) (Raise msg)
| prog_eq_CreateEntity k k' :
    (forall e, prog_eq (k e) (k' e)) -> prog_eq (CreateEntity k) (CreateEntity k')
| prog_eq_DestroyEntity e k k' :
    (forall r, prog_eq (k r) (k' r)) -> prog_eq (DestroyEntity e k) (DestroyEntity e k')
| prog_eq_AddComponent T e c k k' :
    (forall r, prog_eq (k r) (k' r)) ->
    prog_eq (AddComponent T e c k) (AddComponent T e c k')
| prog_eq_RemoveComponent T e k k' :
    (forall r, prog_eq (k r) (k' r)) ->
    prog_eq (RemoveComponent T e k) (RemoveComponent T e k')
| prog_eq_GetComponent T e k k' :
    (forall r, prog_eq (k r) (k' r)) ->
    prog_eq (GetComponent T e k) (GetComponent T e k')
| prog_eq_SetComponent T e c k k' :
    (forall r, prog_eq (k r) (k' r)) ->
    prog_eq (SetComponent T e c k) (SetComponent T e c k')
| prog_eq_Query sig k k' :
    (forall r, prog_eq (k r) (k' r)) -> prog_eq (Query sig k) (Query sig k')
| prog_eq_ForEach sig body body' k k' :
    (forall e, prog_eq (body e) (body' e)) ->
    (forall r, prog_eq (k r) (k' r)) ->
    prog_eq (ForEach sig body k) (ForEach sig body' k').

(** the same registered system: name, order key and logic *)
Definition same_system {C} (a b : Entry C) : Prop :=
  sys_name (entry_system a) = sys_name (entry_system b) /\
  entry_key a = entry_key b /\
  forall dt, prog_eq (sys_logic (entry_system a) dt) (sys_logic (entry_system b) dt).

(** the same World state: entities, component stores, queue and depth *)
Definition same_state {C} (w w' : World C) : Prop :=
  registry w = registry w' /\ stores w = stores w' /\
  pending w = pending w' /\ iterating w = iterating w'.

(** a registration as an entry of the execution list *)
Definition entry_of {C} (sk : System C * Z) : Entry C := mkEntry (fst sk) (snd sk).

(** the World after a sequence of [registerSystem] calls *)
Definition register_all {C} (regs : list (System C * Z)) (w : World C) : World C :=
  fold_left (fun w0 sk => registerSystem w0 (fst sk) (snd sk)) regs w.

(** the order of the execution list *)
Definition key_le {C} (a b : Entry C) : Prop := (entry_key a <= entry_key b)%Z.

(** A call on the World's API surface (section 4.5), and the World a
    sequence of calls builds from the empty one. *)
Inductive ApiCall (C : Type) :=
| CallRegisterComponent (T : TypeKey)
| CallRegisterSystem (s : System C) (order : Z)
| CallCreateEntity
| CallDestroyEntity (e : Entity)
| CallAddComponent (T : TypeKey) (e : Entity) (c : C)
| CallRemoveComponent (T : TypeKey) (e : Entity)
| CallSetComponent (T : TypeKey) (e : Entity) (c : C)
| CallTick (dt : DeltaTime).
Arguments CallRegisterComponent {C} T.
Arguments CallRegisterSystem {C} s order.
Arguments CallCreateEntity {C}.
Arguments CallDestroyEntity {C} e.
Arguments CallAddComponent {C} T e c.
Arguments CallRemoveComponent {C} T e.
Arguments CallSetComponent {C} T e c.
Arguments CallTick {C} dt.

Definition api_step {C} (w : World C) (call : ApiCall C) : World C :=
  match call with
  | CallRegisterComponent T => registerComponent w T
  | CallRegisterSystem s order => registerSystem w s order
  | CallCreateEntity => fst (createEntity w)
  | CallDestroyEntity e => fst (destroyEntity w e)
  | CallAddComponent T e c => fst (addComponent w T e c)
  | CallRemoveComponent T e => fst (removeComponent w T e)
  | CallSetComponent T e c => fst (setComponent w T e c)
  | CallTick dt => fst (tick w dt)
  end.

Definition api_run {C} (calls : list (ApiCall C)) : World C :=
  fold_left api_step calls empty_world.

(** ** Sample values *)

Definition f32_of_Z (n : Z) : spec_float := binary_normalize F32.prec F32.emax n 0 false.

Definition entity (i : nat) : Entity := mkEntity i 0.

(** a registry that has issued one entity *)
Definition registry1 : Registry.t := snd (Registry.create Registry.empty).

(** Five entities; [Position] on the first three, [Velocity] on the second
    to the fourth (the components are numbers here). *)
Definition world5 : World nat :=
  let w := registerComponent (registerComponent empty_world "Position") "Velocity" in
  let w := fst (createEntity w) in
  let w := fst (createEntity w) in
  let w := fst (createEntity w) in
  let w := fst (createEntity w) in
  fst (createEntity w).

Definition scenario : World nat :=
  let w := fst (addComponent world5 "Position" (entity 0) 10) in
  let w := fst (addComponent w "Position" (entity 1) 11) in
  let w := fst (addComponent w "Position" (entity 2) 12) in
  let w := fst (addComponent w "Velocity" (entity 1) 21) in
  let w := fst (addComponent w "Velocity" (entity 2) 22) in
  fst (addComponent w "Velocity" (entity 3) 23).

Definition moving : gset TypeKey := {["Position"; "Velocity"]}.

(** a system that destroys the second entity, and one that counts the
    moving entities and fails when there are two *)
Definition reaper : System nat :=
  mkSystem "reaper" (fun _ => DestroyEntity (entity 1) (fun _ => Ret)).

Definition counter : System nat :=
  mkSystem "counter"
    (fun _ => Query moving (fun r => match r with
                                     | Ok [_; _] => Raise "two"
                                     | _ => Ret
                                     end)).

(** the same logic as [reaper], written with a case distinction *)
Definition reaper' : System nat :=
  mkSystem "reaper"
    (fun _ => DestroyEntity (entity 1)
                (fun r => match r with Ok _ => Ret | Err _ => Ret end)).

Definition scenario_systems : World nat :=
  registerSystem (registerSystem scenario counter 5) reaper 1.

Definition scenario_systems' : World nat :=
  registerSystem (registerSystem scenario counter 5) reaper' 1.

(** sample vectors, boxes, spheres and matrices *)
Definition vec34 : Vector.Vector2 := Vector.mkVector2 (f32_of_Z 3) (f32_of_Z 4).

Definition vec123 : Vector.Vector3 :=
  Vector.mkVector3 (f32_of_Z 1) (f32_of_Z 2) (f32_of_Z 3).

Definition up_y : Vector.Vector3 :=
  Vector.mkVector3 (f32_of_Z 0) (f32_of_Z 1) (f32_of_Z 0).

(** [2^64], whose square overflows, and [2^-100], whose square underflows *)
Definition huge : spec_float := S754_finite false 8388608 41.
Definition tiny : spec_float := S754_finite false 8388608 (-123).

Definition unit_box : Collision.AABB :=
  Collision.mkAABB (f32_of_Z 0) (f32_of_Z 0) (f32_of_Z 1) (f32_of_Z 1).

Definition corner_box : Collision.AABB :=
  Collision.mkAABB (f32_of_Z 1) (f32_of_Z 1) (f32_of_Z 3) (f32_of_Z 3).

Definition inverted_box : Collision.AABB :=
  Collision.mkAABB (f32_of_Z 1) (f32_of_Z 0) (f32_of_Z 0) (f32_of_Z 1).

Definition nan_box : Collision.AABB :=
  Collision.mkAABB (f32_of_Z 0) S754_nan (f32_of_Z 1) (f32_of_Z 1).

Definition ball : Collision.Sphere := Collision.mkSphere vec123 (f32_of_Z (-2)).

Definition grid3 : Matrix.Matrix3x3 :=
  Matrix.mkMatrix3x3 (f32_of_Z 1) (f32_of_Z 2) (f32_of_Z 3)
                     (f32_of_Z 4) (f32_of_Z (-5)) (f32_of_Z 6)
                     (f32_of_Z 7) (f32_of_Z 8) (f32_of_Z 0).

Definition grid4 : Matrix.Matrix4x4 :=
  Matrix.mkMatrix4x4 (f32_of_Z 1) (f32_of_Z 2) (f32_of_Z 3) (f32_of_Z 4)
                     (f32_of_Z 5) (f32_of_Z (-6)) (f32_of_Z 7) (f32_of_Z 8)
                     (f32_of_Z 9) (f32_of_Z 10) (f32_of_Z 0) (f32_of_Z 12)
                     (f32_of_Z 13) (f32_of_Z 14) (f32_of_Z 15) (f32_of_Z 16).

(** [grid3] with an infinity in the middle *)
Definition blown3 : Matrix.Matrix3x3 :=
  Matrix.mkMatrix3x3 (f32_of_Z 1) (f32_of_Z 2) (f32_of_Z 3)
                     (f32_of_Z 4) (S754_infinity false) (f32_of_Z 6)
                     (f32_of_Z 7) (f32_of_Z 8) (f32_of_Z 0).

Example normalize_3_4 :
  Vector.normalize (Vector.mkVector2 (f32_of_Z 3) (f32_of_Z 4)) =
  Vector.mkVector2 (F32.div (f32_of_Z 3) (f32_of_Z 5)) (F32.div (f32_of_Z 4) (f32_of_Z 5)).
Proof. vm_compute. reflexivity. Qed.

Example normalize_zero :
  Vector.normalize (Vector.mkVector2 (S754_zero true) F32.zero) = Vector.Vector2_default.
Proof. reflexivity. Qed.

Example scenario_query :
  query scenario moving = Ok [entity 1; entity 2].
Proof. vm_compute. reflexivity. Qed.

Example scenario_tick :
  let '(w, report) := tick scenario_systems F32.zero in
  report = [("reaper", Completed); ("counter", Raised "two")] /\
  query w moving = Ok [entity 2] /\
  pending w = [].
Proof. vm_compute. auto. Qed.

Example store_swap_and_pop :
  Store.iterate (store_run [SAdd (entity 0) 10; SAdd (entity 1) 11; SAdd (entity 2) 12;
                            SRemove (entity 0)]) =
  [(entity 2, 12); (entity 1, 11)].
Proof. vm_compute. reflexivity. Qed.

(** * Floating-point facts *)
Section FloatFacts.

Lemma SFcompare_antisym x y : SFcompare y x = option_map CompOpp (SFcompare x y).
Proof.
  destruct x as [sx|sx| |sx mx ex], y as [sy|sy| |sy my ey]; simpl; try reflexivity;
    try (destruct sx; reflexivity); try (destruct sy; reflexivity);
    try (destruct sx, sy; reflexivity).
  destruct sx, sy; simpl; try reflexivity;
    rewrite (Z.compare_antisym ey ex); destruct (ey ?= ex)%Z; simpl; try reflexivity;
    try rewrite (Pos.compare_cont_antisym mx my Eq); simpl;
    destruct (Pos.compare_cont Eq my mx); reflexivity.
Qed.

Lemma ge_le x y : F32.ge x y = F32.le y x.
Proof.
  unfold F32.ge, F32.le, SFleb. rewrite (SFcompare_antisym x y).
  destruct (SFcompare x y) as [[]|]; reflexivity.
Qed.

Lemma gt_nonzero l : F32.gt l F32.zero = true -> F32.is_zero l = false.
Proof. destruct l as [s|s| |s m e]; simpl; try reflexivity. discriminate. Qed.

Lemma binary_normalize_opp p e m ex s1 s2 :
  same_abs (binary_normalize p e m ex s1) (binary_normalize p e (- m) ex s2).
Proof.
  destruct m; simpl; try reflexivity; unfold same_abs, binary_round;
  destruct (shl_align _ _ _) as [mz ez]; unfold binary_round_aux;
  destruct (shr_fexp _ _ _ _ _) as [a b]; destruct (shr_fexp _ _ _ _ _) as [c d];
  destruct (shr_m c); try reflexivity; destruct (Z.leb _ _); reflexivity.
Qed.

Lemma SFsub_swap p e x y : same_abs (SFsub p e x y) (SFsub p e y x).
Proof.
  destruct x as [sx|sx| |sx mx ex], y as [sy|sy| |sy my ey]; simpl; try reflexivity;
    try (destruct sx, sy; reflexivity).
  rewrite (Z.min_comm ey ex).
  set (a := cond_Zopp sx _). set (b := cond_Zopp sy _).
  replace (b - a)%Z with (- (a - b))%Z by lia.
  apply binary_normalize_opp.
Qed.

Lemma SFadd_comm p e x y : SFadd p e x y = SFadd p e y x.
Proof.
  destruct x as [sx|sx| |sx mx ex], y as [sy|sy| |sy my ey]; simpl; try reflexivity;
    try (destruct sx, sy; reflexivity).
  rewrite (Z.min_comm ey ex), Z.add_comm. reflexivity.
Qed.

Lemma convert_same_abs p e x y :
  same_abs x y -> same_abs (F64.convert p e x) (F64.convert p e y).
Proof.
  unfold same_abs.
  destruct x as [sx|sx| |sx mx ex], y as [sy|sy| |sy my ey]; simpl;
    intros H; try discriminate; try reflexivity.
  injection H as -> ->.
  destruct sx, sy; simpl; try reflexivity.
  - apply (binary_normalize_opp p e (Zneg my) ey true false).
  - apply (binary_normalize_opp p e (Zpos my) ey false true).
Qed.

Lemma pow2_same_abs x y : same_abs x y -> F64.pow2 x = F64.pow2 y.
Proof.
  unfold same_abs, F64.pow2, F64.mul.
  destruct x as [sx|sx| |sx mx ex], y as [sy|sy| |sy my ey]; simpl;
    intros H; try discriminate; try reflexivity;
    try (destruct sx, sy; reflexivity).
  injection H as -> ->. destruct sx, sy; reflexivity.
Qed.

Lemma square_diff_swap x y :
  F64.pow2 (F64.of_f32 (F32.sub x y)) = F64.pow2 (F64.of_f32 (F32.sub y x)).
Proof. apply pow2_same_abs, convert_same_abs, SFsub_swap. Qed.

End FloatFacts.


(** * Vector normalisation and collision predicates *)
Section VectorCollision.
Import Vector Collision.

(** C8. Vector normalisation is total and never divides by zero: for every
    [Vector2] and every [Vector3], either the length is greater than 0, it is
    then not a zero, and the result is the componentwise quotient by it; or
    the length is not greater than 0 and the result is the zero vector. *)
Theorem normalize_never_divides_by_zero :
  (forall v : Vector2,
     let l := Vector.length v in
     (F32.gt l F32.zero = true /\ F32.is_zero l = false /\
      normalize v = mkVector2 (F32.div (v2x v) l) (F32.div (v2y v) l)) \/
     (F32.gt l F32.zero = false /\ normalize v = mkVector2 F32.zero F32.zero)) /\
  (forall v : Vector3,
     let l := Vector3_length v in
     (F32.gt l F32.zero = true /\ F32.is_zero l = false /\
      Vector3_normalize v =
        mkVector3 (F32.div (v3x v) l) (F32.div (v3y v) l) (F32.div (v3z v) l)) \/
     (F32.gt l F32.zero = false /\
      Vector3_normalize v = mkVector3 F32.zero F32.zero F32.zero)).
Proof.
  split; intros v l.
  - unfold normalize. fold l. destruct (F32.gt l F32.zero) eqn:Hl.
    + left. auto using gt_nonzero.
    + right. auto.
  - unfold Vector3_normalize. fold l. destruct (F32.gt l F32.zero) eqn:Hl.
    + left. auto using gt_nonzero.
    + right. auto.
Qed.

(** C9. The collision predicates are symmetric in their two arguments:
    [aabb_vs_aabb a b = aabb_vs_aabb b a] for all boxes and
    [sphere_vs_sphere a b = sphere_vs_sphere b a] for all spheres. *)
Theorem collision_symmetric :
  (forall a b : AABB, aabb_vs_aabb a b = aabb_vs_aabb b a) /\
  (forall a b : Sphere, sphere_vs_sphere a b = sphere_vs_sphere b a).
Proof.
  split; intros a b.
  - unfold aabb_vs_aabb. rewrite !ge_le.
    destruct (F32.le (min_x a) (max_x b)), (F32.le (min_x b) (max_x a)),
      (F32.le (min_y a) (max_y b)), (F32.le (min_y b) (max_y a)); reflexivity.
  - unfold sphere_vs_sphere, dist_squared.
    rewrite (square_diff_swap (v3x (center a))), (square_diff_swap (v3y (center a))),
      (square_diff_swap (v3z (center a))).
    unfold F32.add. rewrite (SFadd_comm _ _ (radius a)). reflexivity.
Qed.

(** C10. Point containment coincides with overlap against the degenerate
    box: [point_vs_aabb x y b] is true if and only if
    [aabb_vs_aabb (AABB x y x y) b] is true. *)
Theorem point_is_degenerate_box (x y : spec_float) (b : AABB) :
  point_vs_aabb x y b = true <-> aabb_vs_aabb (mkAABB x y x y) b = true.
Proof.
  unfold point_vs_aabb, aabb_vs_aabb. simpl.
  destruct (F32.ge x (min_x b)), (F32.le x (max_x b)),
    (F32.ge y (min_y b)), (F32.le y (max_y b)); simpl; tauto.
Qed.

End VectorCollision.

(** * More floating-point facts *)
Section FloatAlgebra.

Lemma SFmul_comm p e x y : SFmul p e x y = SFmul p e y x.
Proof.
  destruct x as [sx|sx| |sx mx ex], y as [sy|sy| |sy my ey]; simpl;
    try reflexivity; try (by rewrite xorb_comm).
  by rewrite xorb_comm, Pos.mul_comm, Z.add_comm.
Qed.

Lemma cond_Zopp_sub_diag s m : (cond_Zopp s m - cond_Zopp s m = 0)%Z.
Proof. lia. Qed.

(** [x - x] is [+0] unless [x] is an infinity or a NaN *)
Lemma SFsub_diag p e x :
  F32.is_finite x = true -> SFsub p e x x = S754_zero false.
Proof.
  destruct x as [s|s| |s m ex]; simpl; try discriminate; intros _.
  - by destruct s.
  - by rewrite Z.sub_diag.
Qed.

Lemma SFsub_diag_cases p e x :
  SFsub p e x x = S754_zero false \/ SFsub p e x x = S754_nan.
Proof.
  destruct x as [s|s| |s m ex]; simpl; auto.
  - left. by destruct s.
  - right. by destruct s.
  - left. by rewrite Z.sub_diag.
Qed.

Lemma binary_round_opp p e s m ex :
  binary_round p e (negb s) m ex = SFopp (binary_round p e s m ex).
Proof.
  unfold binary_round. destruct (shl_align _ _ _) as [mz ez].
  unfold binary_round_aux.
  destruct (shr_fexp _ _ _ _ _) as [a b]. destruct (shr_fexp _ _ _ _ _) as [c d].
  destruct (shr_m c); try reflexivity. by destruct (Z.leb _ _).
Qed.

(** swapping the operands of a subtraction negates the result, except that
    an exact cancellation is [+0] both ways *)
Lemma SFsub_antisym p e x y :
  SFsub p e y x = SFopp (SFsub p e x y) \/
  (SFsub p e x y = S754_zero false /\ SFsub p e y x = S754_zero false).
Proof.
  destruct x as [sx|sx| |sx mx ex], y as [sy|sy| |sy my ey]; simpl;
    try (left; reflexivity); try (destruct sx, sy; simpl; auto; fail).
  all: try (destruct sx; simpl; auto; fail). all: try (destruct sy; simpl; auto; fail).
  rewrite (Z.min_comm ey ex).
  set (a := cond_Zopp sx _). set (b := cond_Zopp sy _).
  replace (b - a)%Z with (- (a - b))%Z by lia.
  destruct (a - b)%Z as [|d|d]; simpl; [by right | left | left].
  - apply (binary_round_opp p e false).
  - by rewrite <- (binary_round_opp p e true).
Qed.

End FloatAlgebra.

Section Rounding.
Variables prec emax : Z.

Lemma iter_pos_inv {A} (P : A -> Prop) (f : A -> A) (n : positive) (x : A) :
  (forall y, P y -> P (f y)) -> P x -> P (SpecFloat.iter_pos f n x).
Proof.
  intros Hf. revert x. induction n as [n IH | n IH |]; intros x Hx; simpl; auto.
Qed.

Lemma iter_pos_iter {A} (f : A -> A) (n : positive) (x : A) :
  SpecFloat.iter_pos f n x = Pos.iter f x n.
Proof.
  revert x. induction n as [n IH | n IH |]; intros x; simpl; [| |done].
  - by rewrite !IH, <- !Pos.iter_swap.
  - by rewrite !IH.
Qed.

Lemma shr_1_nonneg mrs : (0 <= shr_m mrs)%Z -> (0 <= shr_m (shr_1 mrs))%Z.
Proof. destruct mrs as [[|[m|m|]|[m|m|]] r s]; simpl; lia. Qed.

Lemma shr_fexp_nonneg m e l :
  (0 <= m)%Z -> (0 <= shr_m (fst (shr_fexp prec emax m e l)))%Z.
Proof.
  intros Hm. unfold shr_fexp, shr.
  assert (0 <= shr_m (shr_record_of_loc m l))%Z as H0.
  { by destruct l as [|[]]. }
  destruct (_ - e)%Z; simpl; try done.
  apply (iter_pos_inv (fun mrs => (0 <= shr_m mrs)%Z)); [apply shr_1_nonneg | done].
Qed.

Lemma round_nearest_even_nonneg m l : (0 <= m)%Z -> (0 <= round_nearest_even m l)%Z.
Proof. intros Hm. destruct l as [|[]]; simpl; try lia. destruct (Z.even m); lia. Qed.

(** rounding a non-negative mantissa gives a number of the requested sign *)
Lemma binary_round_aux_signed s m e l :
  (0 <= m)%Z -> signed s (binary_round_aux prec emax s m e l).
Proof.
  intros Hm. unfold binary_round_aux.
  pose proof (shr_fexp_nonneg m e l Hm) as H1.
  destruct (shr_fexp prec emax m e l) as [mrs' e']. simpl in H1.
  pose proof (shr_fexp_nonneg _ e' loc_Exact
                (round_nearest_even_nonneg _ (loc_of_shr_record mrs') H1)) as H2.
  destruct (shr_fexp prec emax _ e' loc_Exact) as [mrs'' e'']. simpl in H2.
  destruct (shr_m mrs''); simpl; [done | | lia].
  by destruct (Z.leb _ _).
Qed.

Lemma binary_round_signed s m e : signed s (binary_round prec emax s m e).
Proof.
  unfold binary_round. destruct (shl_align _ _ _) as [mz ez].
  by apply binary_round_aux_signed.
Qed.

Lemma SFmul_signed sx sy x y :
  signed sx x -> signed sy y ->
  signed (xorb sx sy) (SFmul prec emax x y) \/ SFmul prec emax x y = S754_nan.
Proof.
  destruct x as [s1|s1| |s1 m1 e1], y as [s2|s2| |s2 m2 e2]; simpl;
    try done; intros <- <-; auto.
  left. by apply binary_round_aux_signed.
Qed.

(** a square is a non-negative number *)
Lemma SFmul_square x : x <> S754_nan -> signed false (SFmul prec emax x x).
Proof.
  destruct x as [s|s| |s m e]; simpl; try done; intros _; try apply xorb_nilpotent.
  rewrite xorb_nilpotent. by apply binary_round_aux_signed.
Qed.

Lemma SFadd_signed s x y :
  signed s x -> signed s y -> signed s (SFadd prec emax x y).
Proof.
  destruct x as [s1|s1| |s1 m1 e1], y as [s2|s2| |s2 m2 e2]; simpl;
    try done; intros <- Heq; try subst s2; try (by destruct s1).
  destruct s1; simpl; apply binary_round_signed.
Qed.

(** the sum of two numbers is a NaN only for infinities of opposite sign *)
Lemma SFadd_number x y :
  x <> S754_nan -> y <> S754_nan ->
  F32.is_finite x = true \/ F32.is_finite y = true ->
  SFadd prec emax x y <> S754_nan.
Proof.
  destruct x as [s1|s1| |s1 m1 e1], y as [s2|s2| |s2 m2 e2]; simpl;
    try done; intros _ _ Hfin; try (by destruct s1, s2); try (by destruct Hfin).
  destruct (_ + _)%Z; simpl; try done.
  - pose proof (binary_round_signed false p (e1 `min` e2)) as H.
    by destruct (binary_round prec emax false p _).
  - pose proof (binary_round_signed true p (e1 `min` e2)) as H.
    by destruct (binary_round prec emax true p _).
Qed.

Lemma SFsqrt_signed x : signed false x -> signed false (SFsqrt prec emax x).
Proof.
  destruct x as [s|s| |s m e]; simpl; try done.
  - by intros ->.
  - intros ->. unfold SFsqrt_core_binary.
    match goal with |- context [Z.sqrtrem ?a] => set (m' := a) end.
    assert (0 <= m')%Z as Hm'.
    { unfold m'. destruct (e - 2 * _)%Z; try lia. apply Z.shiftl_nonneg. lia. }
    pose proof (Z.sqrtrem_spec m' Hm') as Hspec.
    destruct (Z.sqrtrem m') as [q r]. destruct Hspec as [_ Hr].
    apply binary_round_aux_signed. lia.
Qed.

End Rounding.

Section Exact.
Variables prec emax : Z.

Lemma digits2_pos_shift m k :
  digits2_pos (Pos.iter xO m k) = (digits2_pos m + k)%positive.
Proof.
  induction k as [|k IH] using Pos.peano_ind.
  - simpl. lia.
  - rewrite Pos.iter_succ. simpl. rewrite IH. lia.
Qed.

Lemma shr_shift m k :
  SpecFloat.iter_pos shr_1 k (Build_shr_record (Zpos (Pos.iter xO m k)) false false) =
  Build_shr_record (Zpos m) false false.
Proof.
  rewrite iter_pos_iter. induction k as [|k IH] using Pos.peano_ind; [done|].
  rewrite Pos.iter_succ_r, Pos.iter_succ. simpl. exact IH.
Qed.

(** a canonical mantissa comes back from rounding as it is *)
Lemma binary_round_aux_canonical s m e :
  bounded prec emax m e = true ->
  binary_round_aux prec emax s (Zpos m) e loc_Exact = S754_finite s m e.
Proof.
  unfold bounded, canonical_mantissa. intros [Hc Hb]%andb_true_iff.
  apply Z.eqb_eq in Hc.
  unfold binary_round_aux, shr_fexp. simpl Zdigits2. rewrite Hc, Z.sub_diag. simpl.
  rewrite Hc, Z.sub_diag. simpl. by rewrite Hb.
Qed.

(** so does it when it was shifted left before *)
Lemma binary_round_aux_shifted s m e k :
  bounded prec emax m e = true ->
  binary_round_aux prec emax s (Zpos (Pos.iter xO m k)) (e - Zpos k) loc_Exact =
  S754_finite s m e.
Proof.
  unfold bounded, canonical_mantissa. intros [Hc Hb]%andb_true_iff.
  apply Z.eqb_eq in Hc.
  unfold binary_round_aux, shr_fexp. simpl Zdigits2. rewrite digits2_pos_shift.
  replace (Z.pos (digits2_pos m + k) + (e - Z.pos k))%Z
    with (Z.pos (digits2_pos m) + e)%Z by lia.
  rewrite Hc. replace (e - (e - Z.pos k))%Z with (Z.pos k) by lia.
  simpl shr. rewrite shr_shift. simpl.
  replace (e - Z.pos k + Z.pos k)%Z with e by lia.
  rewrite Hc, Z.sub_diag. simpl. by rewrite Hb.
Qed.

End Exact.

Section Conversions.

(** the value of a [float], as the [double] the conversion gives *)
Lemma of_f32_finite s m e :
  bounded F32.prec F32.emax m e = true ->
  exists mz ez,
    F64.of_f32 (S754_finite s m e) = S754_finite s mz ez /\
    bounded F64.prec F64.emax mz ez = true /\
    F64.to_f32 (S754_finite s mz ez) = S754_finite s m e.
Proof.
  intros Hb. pose proof Hb as [Hc He]%andb_true_iff.
  unfold canonical_mantissa, fexp, SpecFloat.emin, F32.prec, F32.emax in Hc.
  apply Z.eqb_eq in Hc. apply Z.leb_le in He. unfold F32.prec, F32.emax in He.
  set (d := Z.pos (digits2_pos m)) in *.
  assert (1 <= d)%Z as Hd1 by (unfold d; lia).
  assert (d <= 24 /\ -149 <= e)%Z as [Hd He'] by lia.
  set (k := Z.to_pos (53 - d)).
  assert (Z.pos k = 53 - d)%Z as Hk by (unfold k; lia).
  exists (Pos.iter xO m k), (e - Z.pos k)%Z.
  assert (bounded F64.prec F64.emax (Pos.iter xO m k) (e - Z.pos k) = true) as Hb64.
  { unfold bounded, canonical_mantissa, fexp, SpecFloat.emin, F64.prec, F64.emax.
    rewrite digits2_pos_shift. apply andb_true_iff.
    split; [apply Z.eqb_eq | apply Z.leb_le]; fold d; lia. }
  split; [|split; [done|]].
  - assert (binary_round F64.prec F64.emax s m e =
            S754_finite s (Pos.iter xO m k) (e - Z.pos k)) as Hr.
    { unfold binary_round, shl_align, F64.prec, F64.emax, fexp, SpecFloat.emin.
      replace (Z.max (Z.pos (digits2_pos m) + e - 53) (3 - 1024 - 53) - e)%Z
        with (Z.neg k) by (fold d; lia).
      replace (Z.max (Z.pos (digits2_pos m) + e - 53) (3 - 1024 - 53))%Z
        with (e - Z.pos k)%Z by (fold d; lia).
      apply (binary_round_aux_canonical 53 1024 s _ _ Hb64). }
    unfold F64.of_f32, F64.convert, binary_normalize. by destruct s.
  - assert (binary_round F32.prec F32.emax s (Pos.iter xO m k) (e - Z.pos k) =
            S754_finite s m e) as Hr.
    { unfold binary_round, shl_align. rewrite digits2_pos_shift.
      unfold F32.prec, F32.emax, fexp, SpecFloat.emin.
      replace (Z.max (Z.pos (digits2_pos m + k) + (e - Z.pos k) - 24) (3 - 128 - 24)
               - (e - Z.pos k))%Z with (Z.pos k) by (fold d; lia).
      apply (binary_round_aux_shifted 24 128 s m e k Hb). }
    unfold F64.to_f32, F64.convert, binary_normalize. by destruct s.
Qed.

End Conversions.

Section Units.

Lemma to_f32_of_f32 x : F32.valid x = true -> F64.to_f32 (F64.of_f32 x) = x.
Proof.
  destruct x as [s|s| |s m e]; try done. intros Hb.
  destruct (of_f32_finite s m e Hb) as (mz & ez & -> & _ & Hback). done.
Qed.

Lemma F64_mul_one_l s mz ez :
  bounded F64.prec F64.emax mz ez = true ->
  F64.mul F64.one (S754_finite s mz ez) = S754_finite s mz ez.
Proof.
  intros Hb. unfold F64.mul, F64.one, SFmul.
  change (4503599627370496 * mz)%positive with (Pos.iter xO mz 52).
  replace (-52 + ez)%Z with (ez - 52)%Z by lia.
  apply (binary_round_aux_shifted _ _ _ _ _ 52 Hb).
Qed.

Lemma F32_mul_one_r x : F32.valid x = true -> F32.mul x F32.one = x.
Proof.
  unfold F32.mul, F32.one.
  destruct x as [s|s| |s m e]; cbn [SFmul]; try (by rewrite xorb_false_r);
    [done|].
  intros Hb. rewrite xorb_false_r, Pos.mul_comm.
  change (8388608 * m)%positive with (Pos.iter xO m 23).
  replace (e + -23)%Z with (e - 23)%Z by lia.
  apply (binary_round_aux_shifted _ _ _ _ _ 23 Hb).
Qed.

Lemma SFcompare_refl x : x <> S754_nan -> SFcompare x x = Some Eq.
Proof.
  destruct x as [s|s| |s m e]; simpl; try done; intros _.
  - by destruct s.
  - rewrite Z.compare_refl.
    change (Pos.compare_cont Eq m m) with (Pos.compare m m).
    rewrite Pos.compare_refl. by destruct s.
Qed.

End Units.

(** * The order of the comparisons *)
Section Order.

Ltac rank_case :=
  split;
  [ let H := fresh in
    intros H;
    first [ discriminate H
          | eexists _, _; split; [reflexivity|]; split; [reflexivity|];
            unfold rank_le; simpl; lia ]
  | let Ha := fresh in let Hb := fresh in let H := fresh in
    intros (a & b & Ha & Hb & H);
    first [ reflexivity | discriminate Ha | discriminate Hb
          | injection Ha as <-; injection Hb as <-;
            unfold rank_le in H; simpl in H; lia ] ].

Lemma SFleb_rank x y :
  SFleb x y = true <->
  exists a b, rank x = Some a /\ rank y = Some b /\ rank_le a b.
Proof.
  unfold SFleb.
  destruct x as [sx|sx| |sx mx ex], y as [sy|sy| |sy my ey]; simpl;
    try (destruct sx; simpl); try (destruct sy; simpl); try rank_case.
  - destruct (Z.compare_spec ex ey) as [->|Hlt|Hgt]; simpl; try rank_case.
    change (Pos.compare_cont Eq mx my) with (Pos.compare mx my).
    destruct (Pos.compare_spec mx my) as [->|Hm|Hm]; simpl; rank_case.
  - destruct (Z.compare_spec ex ey) as [->|Hlt|Hgt]; simpl; try rank_case.
    change (Pos.compare_cont Eq mx my) with (Pos.compare mx my).
    destruct (Pos.compare_spec mx my) as [->|Hm|Hm]; simpl; rank_case.
Qed.

Lemma SFleb_trans x y z : SFleb x y = true -> SFleb y z = true -> SFleb x z = true.
Proof.
  rewrite !SFleb_rank. intros (a & b & Ha & Hb & Hab) (b' & c & Hb' & Hc & Hbc).
  rewrite Hb in Hb'. simplify_eq. exists a, c. split; [done|]. split; [done|].
  unfold rank_le in *. lia.
Qed.

Lemma SFleb_refl x : x <> S754_nan -> SFleb x x = true.
Proof. intros Hx. unfold SFleb. by rewrite SFcompare_refl. Qed.

Lemma SFleb_number x y : SFleb x y = true -> x <> S754_nan /\ y <> S754_nan.
Proof. unfold SFleb. by destruct x, y. Qed.

End Order.

(** * The vector module, function by function *)
Section VectorFacts.
Import Vector.

Lemma F32_mul_comm x y : F32.mul x y = F32.mul y x.
Proof. apply SFmul_comm. Qed.

Lemma F32_add_comm x y : F32.add x y = F32.add y x.
Proof. apply SFadd_comm. Qed.

Lemma F32_sub_negated x y : negated (F32.sub x y) (F32.sub y x).
Proof. apply SFsub_antisym. Qed.

Lemma is_nan_true x : F32.is_nan x = true -> x = S754_nan.
Proof. by destruct x. Qed.

Lemma is_nan_false x : F32.is_nan x = false <-> x <> S754_nan.
Proof. destruct x; simpl; split; congruence. Qed.

Lemma convert_signed p e s x : signed s x -> signed s (F64.convert p e x).
Proof.
  destruct x as [s'|s'| |s' m ex]; simpl; try done. intros ->.
  destruct s; simpl; apply binary_round_signed.
Qed.

Lemma convert_zero p e x :
  F32.is_zero x = true -> F32.is_zero (F64.convert p e x) = true.
Proof. by destruct x. Qed.

Lemma signed_ge_zero x : signed false x -> F32.ge x F32.zero = true.
Proof. destruct x as [s|s| |s m e]; simpl; try done; by intros ->. Qed.

Lemma gt_zero_not_zero x : F32.is_zero x = true -> F32.gt x F32.zero = false.
Proof. by destruct x. Qed.

Lemma sqrt_zero x : F32.is_zero x = true -> F32.is_zero (F64.sqrt x) = true.
Proof. by destruct x. Qed.

(** the sum of squares is a non-negative number *)
Lemma sum_squares_signed x y :
  x <> S754_nan -> y <> S754_nan ->
  signed false (F32.add (F32.mul x x) (F32.mul y y)).
Proof. intros Hx Hy. apply SFadd_signed; by apply SFmul_square. Qed.

Lemma root_signed x :
  signed false x -> signed false (F64.to_f32 (F64.sqrt (F64.of_f32 x))).
Proof. intros Hx. by apply convert_signed, SFsqrt_signed, convert_signed. Qed.

End VectorFacts.

Section VectorTheorems.
Import Vector.


(** X2. The dot products are symmetric: [a.dot(b)] is [b.dot(a)] for
    [Vector2], and so are the module functions [Vector2_dot] and
    [Vector3_dot], for all vectors. *)
Theorem dot_symmetric :
  (forall a b : Vector2, dot a b = dot b a) /\
  (forall a b : Vector2, Vector2_dot a b = Vector2_dot b a) /\
  (forall a b : Vector3, Vector3_dot a b = Vector3_dot b a).
Proof.
  assert (forall a b : Vector2, dot a b = dot b a) as Hdot.
  { intros a b. unfold dot.
    by rewrite (F32_mul_comm (v2x a)), (F32_mul_comm (v2y a)). }
  split; [done|]. split; intros a b.
  - unfold Vector2_dot. by rewrite Hdot.
  - unfold Vector3_dot.
    by rewrite (F32_mul_comm (v3x a)), (F32_mul_comm (v3y a)), (F32_mul_comm (v3z a)).
Qed.



(** X5. Subtracting a vector with finite fields from itself gives exactly
    the default vector, every field [+0.0], for [Vector2_subtract] and
    [Vector3_subtract]. *)
Theorem subtract_self :
  (forall a : Vector2,
     F32.is_finite (v2x a) = true -> F32.is_finite (v2y a) = true ->
     Vector2_subtract a a = Vector2_default) /\
  (forall a : Vector3,
     F32.is_finite (v3x a) = true -> F32.is_finite (v3y a) = true ->
     F32.is_finite (v3z a) = true ->
     Vector3_subtract a a = Vector3_default).
Proof.
  split.
  - intros a Hx Hy. unfold Vector2_subtract, F32.sub. by rewrite !SFsub_diag.
  - intros a Hx Hy Hz. unfold Vector3_subtract, F32.sub. by rewrite !SFsub_diag.
Qed.

(** X6. A vector with a NaN field normalises to the zero vector: the
    length is NaN, the test [l > 0] fails, and [Vector2()] or [Vector3()] is
    returned; the NaN is not handed on. *)
Theorem normalize_nan :
  (forall v : Vector2,
     F32.is_nan (v2x v) || F32.is_nan (v2y v) = true ->
     normalize v = Vector2_default) /\
  (forall v : Vector3,
     F32.is_nan (v3x v) || F32.is_nan (v3y v) || F32.is_nan (v3z v) = true ->
     Vector3_normalize v = Vector3_default).
Proof.
  split.
  - intros [x y] H. unfold normalize, length, length_squared. cbn [v2x v2y] in *.
    assert (F32.add (F32.mul x x) (F32.mul y y) = S754_nan) as ->; [|done].
    apply orb_true_iff in H as [H | H]; apply is_nan_true in H; subst;
      [reflexivity|].
    unfold F32.add, F32.mul. destruct (SFmul _ _ x x); reflexivity.
  - intros [x y z] H. unfold Vector3_normalize, Vector3_length. cbn [v3x v3y v3z] in *.
    assert (F32.add (F32.add (F32.mul x x) (F32.mul y y)) (F32.mul z z) = S754_nan)
      as ->; [|done].
    apply orb_true_iff in H as [H | H].
    + apply orb_true_iff in H as [H | H]; apply is_nan_true in H; subst;
        unfold F32.add, F32.mul.
      * by destruct (SFmul _ _ y y), (SFmul _ _ z z).
      * by destruct (SFmul _ _ x x), (SFmul _ _ z z).
    + apply is_nan_true in H. subst. unfold F32.add, F32.mul.
      by destruct (SFadd _ _ (SFmul _ _ x x) _).
Qed.

(** X7. When the length of a vector with finite fields overflows to
    [+inf], [normalize] returns a vector whose fields are zeros, not a unit
    vector. *)
Theorem normalize_overflow (v : Vector2) :
  length v = S754_infinity false ->
  F32.is_finite (v2x v) = true -> F32.is_finite (v2y v) = true ->
  F32.is_zero (v2x (normalize v)) = true /\ F32.is_zero (v2y (normalize v)) = true.
Proof.
  intros Hl Hx Hy. unfold normalize. rewrite Hl. simpl.
  destruct (v2x v), (v2y v); done.
Qed.

(** X8. When the sum of the squares underflows to a zero, the vector
    normalises to the zero vector although its fields need not be zero. *)
Theorem normalize_underflow :
  (forall v : Vector2,
     F32.is_zero (length_squared v) = true -> normalize v = Vector2_default) /\
  (forall v : Vector3,
     F32.is_zero (F32.add (F32.add (F32.mul (v3x v) (v3x v)) (F32.mul (v3y v) (v3y v)))
                          (F32.mul (v3z v) (v3z v))) = true ->
     Vector3_normalize v = Vector3_default).
Proof.
  split; intros v H.
  - unfold normalize, length.
    by rewrite gt_zero_not_zero by (by apply convert_zero, sqrt_zero, convert_zero).
  - unfold Vector3_normalize, Vector3_length.
    by rewrite gt_zero_not_zero by (by apply convert_zero, sqrt_zero, convert_zero).
Qed.

(** X9. For a vector without NaN fields, [length_squared] and [length]
    are at least 0, and the test [l > 0] of [normalize] fails only when the
    length is a zero. *)
Theorem length_never_negative (v : Vector2) :
  F32.is_nan (v2x v) = false -> F32.is_nan (v2y v) = false ->
  F32.ge (length_squared v) F32.zero = true /\
  F32.ge (length v) F32.zero = true /\
  F32.gt (length v) F32.zero = negb (F32.is_zero (length v)).
Proof.
  intros Hx%is_nan_false Hy%is_nan_false.
  pose proof (sum_squares_signed _ _ Hx Hy) as Hs. fold (length_squared v) in Hs.
  pose proof (root_signed _ Hs) as Hl. fold (length v) in Hl.
  split; [by apply signed_ge_zero|]. split; [by apply signed_ge_zero|].
  destruct (length v) as [s|s| |s m e]; simpl in *; try done; by subst s.
Qed.

(** X10. Multiplying a vector by the scalar [1.0] gives the vector back
    unchanged, for every vector whose fields are values of the [float]
    format. *)
Theorem multiply_by_one :
  (forall a : Vector2,
     F32.valid (v2x a) = true -> F32.valid (v2y a) = true ->
     Vector2_multiply a F32.one = a) /\
  (forall a : Vector3,
     F32.valid (v3x a) = true -> F32.valid (v3y a) = true ->
     F32.valid (v3z a) = true ->
     Vector3_multiply a F32.one = a).
Proof.
  split.
  - intros [x y] Hx Hy. unfold Vector2_multiply. simpl in *.
    by rewrite !F32_mul_one_r.
  - intros [x y z] Hx Hy Hz. unfold Vector3_multiply. simpl in *.
    by rewrite !F32_mul_one_r.
Qed.

(** X11. Reading the fields of a vector from Python and building a vector
    from them again gives the same vector: the widening to a Python float
    and the rounding back to the [float] field lose nothing. *)
Theorem vector_fields_round_trip :
  (forall v : Vector2,
     F32.valid (v2x v) = true -> F32.valid (v2y v) = true ->
     Vector2_init (F64.of_f32 (v2x v)) (F64.of_f32 (v2y v)) = v) /\
  (forall v : Vector3,
     F32.valid (v3x v) = true -> F32.valid (v3y v) = true ->
     F32.valid (v3z v) = true ->
     Vector3_init (F64.of_f32 (v3x v)) (F64.of_f32 (v3y v)) (F64.of_f32 (v3z v)) = v).
Proof.
  split.
  - intros [x y] Hx Hy. unfold Vector2_init. simpl in *. by rewrite !to_f32_of_f32.
  - intros [x y z] Hx Hy Hz. unfold Vector3_init. simpl in *.
    by rewrite !to_f32_of_f32.
Qed.

End VectorTheorems.

(** * The collision module, function by function *)
Section CollisionFacts.
Import Vector Collision.

Lemma le_nan_l y : F32.le S754_nan y = false.
Proof. done. Qed.

Lemma le_nan_r x : F32.le x S754_nan = false.
Proof. by destruct x. Qed.

Lemma F32_le_trans x y z :
  F32.le x y = true -> F32.le y z = true -> F32.le x z = true.
Proof. apply SFleb_trans. Qed.

Lemma SFadd_double p e x : x <> S754_nan -> SFadd p e x x <> S754_nan.
Proof.
  destruct x as [s|s| |s m ex]; simpl; try done; intros _; try (by destruct s).
  destruct (_ + _)%Z; simpl; try done.
  - pose proof (binary_round_signed p e false p0 (ex `min` ex)) as H.
    by destruct (binary_round p e false p0 _).
  - pose proof (binary_round_signed p e true p0 (ex `min` ex)) as H.
    by destruct (binary_round p e true p0 _).
Qed.

Lemma convert_number p e x : x <> S754_nan -> F64.convert p e x <> S754_nan.
Proof.
  destruct x as [s|s| |s m ex]; simpl; try done; intros _.
  pose proof (binary_round_signed p e s m ex) as H.
  destruct s; simpl; by destruct (binary_round p e _ m ex).
Qed.

Lemma le_zero_signed y : signed false y -> F64.le F32.zero y = true.
Proof. destruct y as [s|s| |s m e]; simpl; try done; by intros ->. Qed.

Lemma SFadd_opp p e x y :
  same_abs (SFadd p e (SFopp x) (SFopp y)) (SFadd p e x y).
Proof.
  destruct x as [sx|sx| |sx mx ex], y as [sy|sy| |sy my ey]; simpl;
    try reflexivity; try (destruct sx, sy; reflexivity).
  set (a := Z.pos (shl_align mx ex _).1). set (b := Z.pos (shl_align my ey _).1).
  replace (cond_Zopp (negb sx) a + cond_Zopp (negb sy) b)%Z
    with (- (cond_Zopp sx a + cond_Zopp sy b))%Z by (destruct sx, sy; simpl; lia).
  symmetry. apply binary_normalize_opp.
Qed.

Lemma aabb_self (a : Collision.AABB) :
  Collision.aabb_vs_aabb a a =
  F32.le (Collision.min_x a) (Collision.max_x a) &&
  F32.le (Collision.min_y a) (Collision.max_y a).
Proof.
  unfold Collision.aabb_vs_aabb. rewrite !ge_le.
  by destruct (F32.le (Collision.min_x a) (Collision.max_x a)),
    (F32.le (Collision.min_y a) (Collision.max_y a)).
Qed.

End CollisionFacts.

Section CollisionTheorems.
Import Vector Collision.

(** X12. A box whose minimum exceeds its maximum on an axis (or has a NaN
    bound there) contains no point at all and does not overlap itself. *)
Theorem inverted_box_empty (b : AABB) :
  F32.le (min_x b) (max_x b) && F32.le (min_y b) (max_y b) = false ->
  aabb_vs_aabb b b = false /\
  forall x y, point_vs_aabb x y b = false.
Proof.
  intros H. split; [by rewrite aabb_self|]. intros x y.
  apply not_true_is_false. unfold point_vs_aabb. rewrite !ge_le, !andb_true_iff.
  intros [[[H1 H2] H3] H4].
  rewrite (F32_le_trans _ _ _ H1 H2), (F32_le_trans _ _ _ H3 H4) in H. done.
Qed.

(** X13. NaN never collides: a box with a NaN bound overlaps no box, in
    either argument order, and contains no point; and a point with a NaN
    coordinate is inside no box. *)
Theorem nan_never_collides :
  (forall (a b : AABB) (x y : spec_float),
     F32.is_nan (min_x a) || F32.is_nan (min_y a) ||
     F32.is_nan (max_x a) || F32.is_nan (max_y a) = true ->
     aabb_vs_aabb a b = false /\ aabb_vs_aabb b a = false /\
     point_vs_aabb x y a = false) /\
  (forall (x y : spec_float) (b : AABB),
     F32.is_nan x || F32.is_nan y = true -> point_vs_aabb x y b = false).
Proof.
  split.
  - intros [x0 y0 x1 y1] b x y H. unfold aabb_vs_aabb, point_vs_aabb.
    rewrite !ge_le. cbn [min_x min_y max_x max_y] in *.
    repeat (apply orb_true_iff in H as [H | H]);
      apply is_nan_true in H; subst; rewrite ?le_nan_l, ?le_nan_r;
      rewrite ?andb_false_r; done.
  - intros x y b H. unfold point_vs_aabb. rewrite !ge_le.
    apply orb_true_iff in H as [H | H]; apply is_nan_true in H; subst;
      rewrite ?le_nan_l, ?le_nan_r; rewrite ?andb_false_r; done.
Qed.

(** X14. Two boxes that contain a common point overlap: the point test
    and the box test agree. *)
Theorem common_point_overlap (x y : spec_float) (a b : AABB) :
  point_vs_aabb x y a = true -> point_vs_aabb x y b = true ->
  aabb_vs_aabb a b = true.
Proof.
  unfold point_vs_aabb, aabb_vs_aabb. rewrite !ge_le, !andb_true_iff.
  intros [[[Ha1 Ha2] Ha3] Ha4] [[[Hb1 Hb2] Hb3] Hb4].
  repeat split; eauto using F32_le_trans.
Qed.

(** X15. A box with [min <= max] on both axes overlaps itself and
    contains its four corners: the bounds are inclusive. *)
Theorem corners_inside (b : AABB) :
  F32.le (min_x b) (max_x b) = true -> F32.le (min_y b) (max_y b) = true ->
  aabb_vs_aabb b b = true /\
  point_vs_aabb (min_x b) (min_y b) b = true /\
  point_vs_aabb (max_x b) (max_y b) b = true /\
  point_vs_aabb (min_x b) (max_y b) b = true /\
  point_vs_aabb (max_x b) (min_y b) b = true.
Proof.
  intros Hx Hy. split; [by rewrite aabb_self, Hx, Hy|].
  destruct (SFleb_number _ _ Hx) as [Hx0 Hx1].
  destruct (SFleb_number _ _ Hy) as [Hy0 Hy1].
  unfold point_vs_aabb. rewrite !ge_le.
  unfold F32.le in *. rewrite !SFleb_refl, Hx, Hy by done. done.
Qed.

(** X16. The box of a single finite point [(x, y)] has width and height
    exactly [+0.0], and its centre compares equal to the point. *)
Theorem degenerate_box (x y : spec_float) :
  F32.valid x = true -> F32.valid y = true ->
  F32.is_finite x = true -> F32.is_finite y = true ->
  width (mkAABB x y x y) = F32.zero /\
  height (mkAABB x y x y) = F32.zero /\
  F32.eq (v2x (center_AABB (mkAABB x y x y))) x = true /\
  F32.eq (v2y (center_AABB (mkAABB x y x y))) y = true.
Proof.
  assert (forall z, F32.valid z = true -> F32.is_finite z = true ->
            F32.eq (F64.to_f32 (F64.add (F64.of_f32 z)
                      (F64.mul (F64.of_f32 (F32.sub z z)) F64.half))) z = true) as Hc.
  { intros z Hv Hf. unfold F32.sub. rewrite SFsub_diag by done.
    destruct z as [s|s| |s m e]; try done.
    - by destruct s.
    - destruct (of_f32_finite s m e Hv) as (mz & ez & -> & _ & Hback).
      change (F64.mul (F64.of_f32 (S754_zero false)) F64.half) with (S754_zero false).
      change (F64.add (S754_finite s mz ez) (S754_zero false))
        with (S754_finite s mz ez).
      rewrite Hback. unfold F32.eq, SFeqb. by rewrite SFcompare_refl. }
  intros Hx Hy Hfx Hfy. unfold width, height, center_AABB. simpl.
  split; [by apply SFsub_diag|]. split; [by apply SFsub_diag|].
  split; by apply Hc.
Qed.

(** X17. A sphere with a finite centre and a radius that is not NaN
    collides with itself, whatever the radius: negative and infinite radii
    included. *)
Theorem sphere_self_collision (s : Sphere) :
  F32.is_finite (v3x (center s)) = true -> F32.is_finite (v3y (center s)) = true ->
  F32.is_finite (v3z (center s)) = true -> F32.is_nan (radius s) = false ->
  sphere_vs_sphere s s = true.
Proof.
  intros Hx Hy Hz Hr%is_nan_false. unfold sphere_vs_sphere, dist_squared, F32.sub.
  rewrite !SFsub_diag by done.
  change (F64.of_f32 (F64.to_f32 _)) with F32.zero.
  apply le_zero_signed. apply SFmul_square.
  by apply convert_number, SFadd_double.
Qed.

(** X18. [sphere_vs_sphere] ignores a common flip of sign of the two
    radii, since only the square of their sum is used: spheres of radii [-r1]
    and [-r2] collide exactly when those of radii [r1] and [r2] do. *)
Theorem sphere_radius_sign (c1 c2 : Vector3) (r1 r2 : spec_float) :
  sphere_vs_sphere (mkSphere c1 (F32.neg r1)) (mkSphere c2 (F32.neg r2)) =
  sphere_vs_sphere (mkSphere c1 r1) (mkSphere c2 r2).
Proof.
  unfold sphere_vs_sphere, dist_squared. simpl.
  f_equal. apply pow2_same_abs, convert_same_abs. apply SFadd_opp.
Qed.

End CollisionTheorems.

(** * The matrix module *)
Section MatrixFacts.
Import Vector Matrix.

Lemma finite_float_spec x :
  finite_float x = true <-> F32.valid x = true /\ F32.is_finite x = true.
Proof. unfold finite_float. apply andb_true_iff. Qed.

(** one times a finite [float], in [double], stands for it *)
Lemma stands_for_one y :
  finite_float y = true ->
  stands_for (F64.mul (F64.of_f32 F32.one) (F64.of_f32 y)) y.
Proof.
  intros [Hv Hf]%finite_float_spec.
  change (F64.of_f32 F32.one) with F64.one.
  destruct y as [s|s| |s m e]; try done.
  - left. done.
  - right. destruct (of_f32_finite s m e Hv) as (mz & ez & -> & Hb & Hback).
    rewrite F64_mul_one_l by done. eauto 10.
Qed.

(** zero times a finite [float], in [double], is a zero *)
Lemma zero_times y :
  finite_float y = true ->
  F32.is_zero (F64.mul (F64.of_f32 F32.zero) (F64.of_f32 y)) = true.
Proof.
  intros [Hv Hf]%finite_float_spec.
  destruct y as [s|s| |s m e]; try done.
  by destruct (of_f32_finite s m e Hv) as (mz & ez & -> & _).
Qed.

Lemma zero_plus a b :
  F32.is_zero a = true -> F32.is_zero b = true -> F32.is_zero (F64.add a b) = true.
Proof. by destruct a as [[]| | |], b as [[]| | |]. Qed.

Lemma stands_for_add_r u z y :
  stands_for u y -> F32.is_zero z = true -> stands_for (F64.add u z) y.
Proof.
  intros [[Hu Hy] | (s & m & e & -> & Hy)] Hz.
  - left. split; [|done]. destruct u as [[]| | |], z as [[]| | |]; done.
  - right. destruct z; try done. eauto 10.
Qed.

Lemma stands_for_add_l u z y :
  F32.is_zero z = true -> stands_for u y -> stands_for (F64.add z u) y.
Proof.
  intros Hz [[Hu Hy] | (s & m & e & -> & Hy)].
  - left. split; [|done]. destruct u as [[]| | |], z as [[]| | |]; done.
  - right. destruct z; try done. eauto 10.
Qed.

Lemma stands_for_eq u y : stands_for u y -> F32.eq (F64.to_f32 u) y = true.
Proof.
  intros [[Hu Hy] | (s & m & e & -> & Hz & Hn & Hback)].
  - destruct u, y; done.
  - rewrite Hback. unfold F32.eq, SFeqb. rewrite SFcompare_refl; [done|].
    by destruct y.
Qed.

Lemma row3_swap x0 x1 x2 y0 y1 y2 : row3 x0 x1 x2 y0 y1 y2 = row3 y0 y1 y2 x0 x1 x2.
Proof.
  unfold row3, F64.mul.
  by rewrite (SFmul_comm _ _ (F64.of_f32 x0)), (SFmul_comm _ _ (F64.of_f32 x1)),
    (SFmul_comm _ _ (F64.of_f32 x2)).
Qed.

Lemma row4_swap x0 x1 x2 x3 y0 y1 y2 y3 :
  row4 x0 x1 x2 x3 y0 y1 y2 y3 = row4 y0 y1 y2 y3 x0 x1 x2 x3.
Proof.
  unfold row4, F64.mul.
  by rewrite (SFmul_comm _ _ (F64.of_f32 x0)), (SFmul_comm _ _ (F64.of_f32 x1)),
    (SFmul_comm _ _ (F64.of_f32 x2)), (SFmul_comm _ _ (F64.of_f32 x3)).
Qed.

Ltac zero_row :=
  repeat first [ apply zero_times; assumption | apply zero_plus ].

Ltac unit_row :=
  apply stands_for_eq;
  repeat first
    [ apply stands_for_one; assumption
    | apply stands_for_add_r; [|by zero_row]
    | apply stands_for_add_l; [by zero_row|] ].

Lemma row3_unit y0 y1 y2 :
  finite_float y0 = true -> finite_float y1 = true -> finite_float y2 = true ->
  F32.eq (F64.to_f32 (row3 F32.one F32.zero F32.zero y0 y1 y2)) y0 = true /\
  F32.eq (F64.to_f32 (row3 F32.zero F32.one F32.zero y0 y1 y2)) y1 = true /\
  F32.eq (F64.to_f32 (row3 F32.zero F32.zero F32.one y0 y1 y2)) y2 = true.
Proof. intros H0 H1 H2. unfold row3. repeat split; unit_row. Qed.

Lemma row4_unit y0 y1 y2 y3 :
  finite_float y0 = true -> finite_float y1 = true ->
  finite_float y2 = true -> finite_float y3 = true ->
  F32.eq (F64.to_f32 (row4 F32.one F32.zero F32.zero F32.zero y0 y1 y2 y3)) y0 = true /\
  F32.eq (F64.to_f32 (row4 F32.zero F32.one F32.zero F32.zero y0 y1 y2 y3)) y1 = true /\
  F32.eq (F64.to_f32 (row4 F32.zero F32.zero F32.one F32.zero y0 y1 y2 y3)) y2 = true /\
  F32.eq (F64.to_f32 (row4 F32.zero F32.zero F32.zero F32.one y0 y1 y2 y3)) y3 = true.
Proof. intros H0 H1 H2 H3. unfold row4. repeat split; unit_row. Qed.

Lemma row3_unit_r y0 y1 y2 :
  finite_float y0 = true -> finite_float y1 = true -> finite_float y2 = true ->
  F32.eq (F64.to_f32 (row3 y0 y1 y2 F32.one F32.zero F32.zero)) y0 = true /\
  F32.eq (F64.to_f32 (row3 y0 y1 y2 F32.zero F32.one F32.zero)) y1 = true /\
  F32.eq (F64.to_f32 (row3 y0 y1 y2 F32.zero F32.zero F32.one)) y2 = true.
Proof. intros. rewrite !(row3_swap y0 y1 y2). by apply row3_unit. Qed.

Lemma row4_unit_r y0 y1 y2 y3 :
  finite_float y0 = true -> finite_float y1 = true ->
  finite_float y2 = true -> finite_float y3 = true ->
  F32.eq (F64.to_f32 (row4 y0 y1 y2 y3 F32.one F32.zero F32.zero F32.zero)) y0 = true /\
  F32.eq (F64.to_f32 (row4 y0 y1 y2 y3 F32.zero F32.one F32.zero F32.zero)) y1 = true /\
  F32.eq (F64.to_f32 (row4 y0 y1 y2 y3 F32.zero F32.zero F32.one F32.zero)) y2 = true /\
  F32.eq (F64.to_f32 (row4 y0 y1 y2 y3 F32.zero F32.zero F32.zero F32.one)) y3 = true.
Proof. intros. rewrite !(row4_swap y0 y1 y2 y3). by apply row4_unit. Qed.

(** zero times an infinity or a NaN is a NaN, and a NaN term makes the sum
    a NaN *)
Lemma zero_times_nonfinite y :
  F32.is_finite y = false ->
  F64.mul (F64.of_f32 F32.zero) (F64.of_f32 y) = S754_nan.
Proof. by destruct y as [s|s| |s m e]. Qed.

Lemma add_nan_l b : F64.add S754_nan b = S754_nan.
Proof. by destruct b. Qed.

Lemma add_nan_r a : F64.add a S754_nan = S754_nan.
Proof. by destruct a. Qed.

Lemma row3_nan0 x1 x2 y0 y1 y2 :
  F32.is_finite y0 = false -> row3 F32.zero x1 x2 y0 y1 y2 = S754_nan.
Proof.
  intros H. unfold row3. by rewrite (zero_times_nonfinite _ H), !add_nan_l.
Qed.

Lemma row3_nan1 x0 x2 y0 y1 y2 :
  F32.is_finite y1 = false -> row3 x0 F32.zero x2 y0 y1 y2 = S754_nan.
Proof.
  intros H. unfold row3.
  by rewrite (zero_times_nonfinite _ H), add_nan_r, add_nan_l.
Qed.

Lemma row3_nan2 x0 x1 y0 y1 y2 :
  F32.is_finite y2 = false -> row3 x0 x1 F32.zero y0 y1 y2 = S754_nan.
Proof.
  intros H. unfold row3. by rewrite (zero_times_nonfinite _ H), add_nan_r.
Qed.

Lemma eq_nan_l v : F32.eq (F64.to_f32 S754_nan) v = false.
Proof. by destruct v. Qed.

(** zeros through the [float] operations *)
Lemma zero_mul_l a b :
  F32.is_zero a = true -> F32.is_finite b = true -> F32.is_zero (F32.mul a b) = true.
Proof. by destruct a, b. Qed.

Lemma zero_sub a b :
  F32.is_zero a = true -> F32.is_zero b = true -> F32.is_zero (F32.sub a b) = true.
Proof. by destruct a as [[]| | |], b as [[]| | |]. Qed.

Lemma zero_add a b :
  F32.is_zero a = true -> F32.is_zero b = true -> F32.is_zero (F32.add a b) = true.
Proof. by destruct a as [[]| | |], b as [[]| | |]. Qed.

Lemma zero_neg64 a : F32.is_zero a = true -> F32.is_zero (F64.neg a) = true.
Proof. by destruct a. Qed.

Lemma zero_eq a : F32.is_zero a = true -> F32.eq a F32.zero = true.
Proof. by destruct a. Qed.

Lemma normalize3_zero v :
  F32.is_zero (v3x v) = true -> F32.is_zero (v3y v) = true ->
  F32.is_zero (v3z v) = true -> Vector3_normalize v = Vector3_default.
Proof.
  intros Hx Hy Hz. unfold Vector3_normalize.
  rewrite gt_zero_not_zero; [done|].
  unfold Vector3_length. apply convert_zero, sqrt_zero, convert_zero.
  repeat apply zero_add; apply zero_mul_l; try done.
  - by destruct (v3x v).
  - by destruct (v3y v).
  - by destruct (v3z v).
Qed.

End MatrixFacts.

Section MatrixTheorems.
Import Vector Matrix.

Ltac split_andb :=
  repeat match goal with
  | H : _ && _ = true |- _ => apply andb_true_iff in H as [? ?]
  end.

(** X19. The identity is neutral for [Matrix3x3.__mul__] on finite
    matrices: [identity() * m] and [m * identity()] are matrices whose
    entries all compare equal to those of [m]. *)
Theorem identity3_neutral (m : Matrix3x3) :
  finite3 m = true ->
  exists l r,
    Matrix3x3_mul (PyMatrix3x3 identity3) (PyMatrix3x3 m) = Some l /\
    Matrix3x3_mul (PyMatrix3x3 m) (PyMatrix3x3 identity3) = Some r /\
    Matrix3x3_eq l m = true /\ Matrix3x3_eq r m = true.
Proof.
  destruct m as [b00 b01 b02 b10 b11 b12 b20 b21 b22].
  unfold finite3. cbn [a00 a01 a02 a10 a11 a12 a20 a21 a22]. intros H. split_andb.
  eexists _, _. split; [reflexivity|]. split; [reflexivity|].
  unfold Matrix3x3_eq, from_values3, identity3, Matrix3x3_init.
  cbn [a00 a01 a02 a10 a11 a12 a20 a21 a22].
  split; repeat (apply andb_true_intro; split);
    first [ by apply row3_unit | by apply row3_unit_r ].
Qed.

(** X20. The identity is neutral for [Matrix4x4.__mul__] on finite
    matrices, on both sides, up to [==] on every entry. *)
Theorem identity4_neutral (m : Matrix4x4) :
  finite4 m = true ->
  exists l r,
    Matrix4x4_mul (PyMatrix4x4 identity4) (PyMatrix4x4 m) = Some l /\
    Matrix4x4_mul (PyMatrix4x4 m) (PyMatrix4x4 identity4) = Some r /\
    Matrix4x4_eq l m = true /\ Matrix4x4_eq r m = true.
Proof.
  destruct m as [b00 b01 b02 b03 b10 b11 b12 b13 b20 b21 b22 b23 b30 b31 b32 b33].
  unfold finite4.
  cbn [m00 m01 m02 m03 m10 m11 m12 m13 m20 m21 m22 m23 m30 m31 m32 m33].
  intros H. split_andb.
  eexists _, _. split; [reflexivity|]. split; [reflexivity|].
  unfold Matrix4x4_eq, from_values4, identity4, Matrix4x4_init.
  cbn [m00 m01 m02 m03 m10 m11 m12 m13 m20 m21 m22 m23 m30 m31 m32 m33].
  split; repeat (apply andb_true_intro; split);
    first [ by apply row4_unit | by apply row4_unit_r ].
Qed.

(** X21. Finiteness is needed: when some entry of [m] is an infinity or
    a NaN, [identity() * m] differs from [m] in at least one entry, because
    [0 * inf] is NaN. *)
Theorem identity3_not_neutral (m : Matrix3x3) :
  valid3 m = true -> finite3 m = false ->
  exists l,
    Matrix3x3_mul (PyMatrix3x3 identity3) (PyMatrix3x3 m) = Some l /\
    Matrix3x3_eq l m = false.
Proof.
  destruct m as [b00 b01 b02 b10 b11 b12 b20 b21 b22].
  unfold valid3, finite3, finite_float.
  cbn [a00 a01 a02 a10 a11 a12 a20 a21 a22]. intros Hv Hf. split_andb.
  eexists. split; [reflexivity|].
  unfold Matrix3x3_eq, from_values3, identity3, Matrix3x3_init.
  cbn [a00 a01 a02 a10 a11 a12 a20 a21 a22].
  destruct (F32.is_finite b00) eqn:F00;
    [|by rewrite (row3_nan0 _ _ b00), eq_nan_l, ?andb_false_r].
  destruct (F32.is_finite b01) eqn:F01;
    [|by rewrite (row3_nan0 _ _ b01), eq_nan_l, ?andb_false_r].
  destruct (F32.is_finite b02) eqn:F02;
    [|by rewrite (row3_nan0 _ _ b02), eq_nan_l, ?andb_false_r].
  destruct (F32.is_finite b10) eqn:F10;
    [|by rewrite (row3_nan1 _ _ _ b10), eq_nan_l, ?andb_false_r].
  destruct (F32.is_finite b11) eqn:F11;
    [|by rewrite (row3_nan1 _ _ _ b11), eq_nan_l, ?andb_false_r].
  destruct (F32.is_finite b12) eqn:F12;
    [|by rewrite (row3_nan1 _ _ _ b12), eq_nan_l, ?andb_false_r].
  destruct (F32.is_finite b20) eqn:F20;
    [|by rewrite (row3_nan2 _ _ _ _ b20), eq_nan_l, ?andb_false_r].
  destruct (F32.is_finite b21) eqn:F21;
    [|by rewrite (row3_nan2 _ _ _ _ b21), eq_nan_l, ?andb_false_r].
  destruct (F32.is_finite b22) eqn:F22;
    [|by rewrite (row3_nan2 _ _ _ _ b22), eq_nan_l, ?andb_false_r].
  repeat match goal with H : F32.valid _ = true |- _ => rewrite H in Hf end.
  done.
Qed.

(** X22. [from_values] of the entries read from a matrix is that matrix,
    for [Matrix3x3] and [Matrix4x4]: the conversion to Python floats and back
    is exact. *)
Theorem from_values_round_trip :
  (forall m : Matrix3x3, valid3 m = true ->
     from_values3 (F64.of_f32 (a00 m)) (F64.of_f32 (a01 m)) (F64.of_f32 (a02 m))
                  (F64.of_f32 (a10 m)) (F64.of_f32 (a11 m)) (F64.of_f32 (a12 m))
                  (F64.of_f32 (a20 m)) (F64.of_f32 (a21 m)) (F64.of_f32 (a22 m))
     = m) /\
  (forall m : Matrix4x4, valid4 m = true ->
     from_values4
       (F64.of_f32 (m00 m)) (F64.of_f32 (m01 m)) (F64.of_f32 (m02 m)) (F64.of_f32 (m03 m))
       (F64.of_f32 (m10 m)) (F64.of_f32 (m11 m)) (F64.of_f32 (m12 m)) (F64.of_f32 (m13 m))
       (F64.of_f32 (m20 m)) (F64.of_f32 (m21 m)) (F64.of_f32 (m22 m)) (F64.of_f32 (m23 m))
       (F64.of_f32 (m30 m)) (F64.of_f32 (m31 m)) (F64.of_f32 (m32 m)) (F64.of_f32 (m33 m))
     = m).
Proof.
  split; intros m H; destruct m; unfold valid3, valid4 in H; simpl in H;
    split_andb; unfold from_values3, from_values4; simpl;
    by rewrite !to_f32_of_f32.
Qed.

(** X23. [perspective] does not reject degenerate arguments: with
    [near = far] finite, the entries [m22] and [m23] are an infinity or a
    NaN, and with [aspect] a zero so is [m00]; no exception is raised. *)
Theorem perspective_degenerate :
  (forall tan fov_y aspect near,
     F32.is_finite near = true ->
     F32.is_finite (m22 (perspective tan fov_y aspect near near)) = false /\
     F32.is_finite (m23 (perspective tan fov_y aspect near near)) = false) /\
  (forall tan fov_y aspect near far,
     F32.is_zero aspect = true ->
     F32.is_finite (m00 (perspective tan fov_y aspect near far)) = false).
Proof.
  split.
  - intros tan fov_y aspect near Hn. unfold perspective.
    cbn [m22 m23]. unfold F32.sub. rewrite SFsub_diag by done.
    change (F64.to_f32 (F64.div F64.one (F64.of_f32 (S754_zero false))))
      with (S754_infinity false).
    split.
    + by destruct (F32.add near near).
    + change (F64.of_f32 (S754_infinity false)) with (S754_infinity false).
      by destruct (F64.mul (F64.mul F64.two (F64.of_f32 near)) (F64.of_f32 near)).
  - intros tan fov_y aspect near far Ha. unfold perspective. cbn [m00].
    destruct aspect; try done.
    by destruct (F64.to_f32 _).
Qed.


End MatrixTheorems.

(** * Component Store *)
Section StoreFacts.
Context {C : Type}.
Implicit Types (s : Store.t C) (e : Entity) (c : C).

(** [dense_ok], slot by slot *)
Lemma dense_ok_alt s :
  dense_ok s <->
  length (Store.dense s) = length (Store.owner s) /\
  (forall i e, Store.owner s !! i = Some e -> Store.slot_of s !! index e = Some i) /\
  (forall k i, Store.slot_of s !! k = Some i ->
               exists e, Store.owner s !! i = Some e /\ index e = k).
Proof.
  unfold dense_ok. rewrite Forall_lookup. unfold map_Forall.
  split; intros (Hlen & Hfwd & Hbwd); (split; [exact Hlen | split]).
  - intros i e Hi. apply (Hfwd i (i, e)). rewrite list_lookup_imap, Hi. reflexivity.
  - intros k i Hk. specialize (Hbwd k i Hk).
    destruct (Store.owner s !! i) as [e|]; simplify_eq/=. eauto.
  - intros i [j e]. rewrite list_lookup_imap. intros Hi.
    destruct (Store.owner s !! i) as [e'|] eqn:He; simplify_eq/=. eauto.
  - intros k i Hk. destruct (Hbwd k i Hk) as (e & -> & <-). reflexivity.
Qed.

Lemma dense_ok_empty : dense_ok (@Store.empty C).
Proof.
  apply dense_ok_alt. simpl. split; [reflexivity | split]; intros ? ?.
  - rewrite lookup_nil. discriminate.
  - rewrite lookup_empty. discriminate.
Qed.

Lemma has_true s e : Store.has s e = true <-> is_Some (Store.slot_of s !! index e).
Proof.
  unfold Store.has. destruct (Store.slot_of s !! index e); split; intros H;
    try done; eauto; by destruct H.
Qed.

Lemma has_false s e : Store.has s e = false <-> Store.slot_of s !! index e = None.
Proof. unfold Store.has. destruct (Store.slot_of s !! index e); split; done. Qed.

(** under [dense_ok], [has] looks for the entity's index among the owners *)
Lemma has_owner s e :
  dense_ok s -> (Store.has s e = true <-> index e ∈ index <$> Store.owner s).
Proof.
  intros (_ & Hfwd & Hbwd)%dense_ok_alt. rewrite has_true, list_elem_of_fmap. split.
  - intros [i Hi]. destruct (Hbwd _ _ Hi) as (e' & He' & Hk).
    exists e'. split; [done | by eapply list_elem_of_lookup_2].
  - intros (e' & Hk & [i Hi]%list_elem_of_lookup_1).
    exists i. rewrite Hk. eauto.
Qed.

Lemma dense_ok_index_inj s i j e e' :
  dense_ok s -> Store.owner s !! i = Some e -> Store.owner s !! j = Some e' ->
  index e = index e' -> i = j.
Proof.
  intros (_ & Hfwd & _)%dense_ok_alt Hi Hj Heq.
  apply Hfwd in Hi, Hj. rewrite Heq in Hi. congruence.
Qed.

Lemma dense_ok_NoDup_index s : dense_ok s -> NoDup (index <$> Store.owner s).
Proof.
  intros Hok. apply NoDup_alt. intros i j k.
  rewrite !list_lookup_fmap. intros Hi Hj.
  destruct (Store.owner s !! i) as [e|] eqn:Ei; [|discriminate].
  destruct (Store.owner s !! j) as [e'|] eqn:Ej; [|discriminate].
  simplify_eq/=. eauto using dense_ok_index_inj.
Qed.

Lemma dense_ok_NoDup s : dense_ok s -> NoDup (Store.owner s).
Proof. intros H%dense_ok_NoDup_index. by eapply NoDup_fmap_1. Qed.

Lemma dense_ok_has_owner s e :
  dense_ok s -> e ∈ Store.owner s -> Store.has s e = true.
Proof. intros Hok He. apply has_owner; [done|]. by apply list_elem_of_fmap_2. Qed.

Lemma iterate_entities s :
  dense_ok s -> fst <$> Store.iterate s = Store.owner s.
Proof. intros (Hlen & _). unfold Store.iterate. apply fst_zip. lia. Qed.

(** *** add *)

Lemma add_dense_ok s e c : dense_ok s -> dense_ok (fst (Store.add s e c)).
Proof.
  intros Hok. unfold Store.add. destruct (Store.has s e) eqn:Hhas; [done|].
  apply has_false in Hhas. pose proof Hok as (Hlen & Hfwd & Hbwd)%dense_ok_alt.
  apply dense_ok_alt; simpl. split; [|split].
  - rewrite !length_app. simpl. lia.
  - intros i e' [Hi | [-> ->]]%lookup_snoc_Some.
    + destruct Hi as [_ Hi]. 
      assert (index e' <> index e).
      { intros Heq. apply Hfwd in Hi. congruence. }
      rewrite lookup_insert_ne by done. auto.
    + rewrite Hlen. apply lookup_insert_eq.
  - intros k i. rewrite lookup_insert. case_decide as Hk.
    + intros [= <-]. exists e. split; [|done].
      rewrite Hlen. apply list_lookup_middle. done.
    + intros Hi. destruct (Hbwd _ _ Hi) as (e' & He' & Hk').
      exists e'. split; [|done]. by apply lookup_app_l_Some.
Qed.

(** *** remove *)

Lemma swap_pop_lookup {A} (l : list A) i y j :
  i < length l ->
  take (pred (length l)) (<[i := y]> l) !! j =
  if decide (j < pred (length l)) then (if decide (j = i) then Some y else l !! j)
  else None.
Proof.
  intros Hi. case_decide as Hj.
  - rewrite lookup_take_lt by done. case_decide as Hji.
    + subst. by apply list_lookup_insert_eq.
    + by apply list_lookup_insert_ne.
  - apply lookup_take_ge. lia.
Qed.

Lemma swap_pop_perm {A} (l : list A) i x y :
  l !! i = Some x -> l !! pred (length l) = Some y ->
  take (pred (length l)) (<[i := y]> l) ≡ₚ delete i l.
Proof.
  intros Hi Hlast.
  induction l as [|y' l1 _] using rev_ind; [discriminate|].
  rewrite length_app in *. simpl in *.
  replace (pred (length l1 + 1)) with (length l1) in * by lia.
  rewrite list_lookup_middle in Hlast by done. simplify_eq.
  apply lookup_snoc_Some in Hi as [[Hlt Hi] | [-> ->]].
  - rewrite insert_app_l by done. rewrite take_app_length'
      by (by rewrite length_insert).
    apply list_elem_of_split_length in Hi as (a & b & -> & ->).
    rewrite insert_app_r_alt, Nat.sub_diag by done. simpl.
    rewrite <- (app_assoc a (x :: b) [y]).
    change ((x :: b) ++ [y]) with (x :: (b ++ [y])).
    rewrite (delete_middle a (b ++ [y]) x).
    apply Permutation_app_head, Permutation_cons_append.
  - rewrite list_insert_id by (by apply list_lookup_middle).
    rewrite take_app_length.
    rewrite delete_take_drop, take_app_length, drop_ge
      by (rewrite length_app; simpl; lia).
    by rewrite app_nil_r.
Qed.

Lemma remove_dense_ok s e : dense_ok s -> dense_ok (fst (Store.remove s e)).
Proof.
  intros Hok. unfold Store.remove.
  destruct (Store.slot_of s !! index e) as [i|] eqn:Hslot; [|done].
  destruct (Store.dense s !! _) as [cl|] eqn:Hcl; [|done].
  destruct (Store.owner s !! _) as [el|] eqn:Hel; [|done].
  pose proof Hok as (Hlen & Hfwd & Hbwd)%dense_ok_alt.
  destruct (Hbwd _ _ Hslot) as (ei & Hei & Hk).
  rewrite Hlen in Hel.
  pose proof (lookup_lt_Some _ _ _ Hei) as Hi.
  pose proof (Hfwd _ _ Hel) as Hsl.
  apply dense_ok_alt; simpl. split; [|split].
  - rewrite !length_take, !length_insert. lia.
  - intros j e'. rewrite Hlen, swap_pop_lookup by done.
    case_decide as Hj; [|done]. case_decide as Hji.
    + intros [= <-]. subst j.
      rewrite lookup_delete_ne, lookup_insert_eq; [done|].
      intros Heq. rewrite <- Heq, Hslot in Hsl. simplify_eq. lia.
    + intros He'. pose proof (Hfwd _ _ He') as Hs'.
      rewrite lookup_delete_ne, lookup_insert_ne; [done| |].
      * intros Heq. rewrite Heq, Hs' in Hsl. simplify_eq. lia.
      * intros Heq. rewrite Heq, Hs' in Hslot. simplify_eq.
  - intros k' j [Hne Hins]%lookup_delete_Some.
    apply lookup_insert_Some in Hins as [[<- <-] | [Hne' Hs']].
    + exists el. split; [|done]. rewrite Hlen, swap_pop_lookup by done.
      assert (i <> pred (length (Store.owner s))) by (intros ->; simplify_eq; done).
      rewrite !decide_True by lia. done.
    + destruct (Hbwd _ _ Hs') as (e' & He' & Hke'). exists e'. split; [|done].
      rewrite Hlen, swap_pop_lookup by done.
      pose proof (lookup_lt_Some _ _ _ He').
      assert (j <> pred (length (Store.owner s))) by (intros ->; simplify_eq; done).
      assert (j <> i) by (intros ->; simplify_eq; done).
      rewrite decide_True, decide_False by lia. done.
Qed.

(** a removal of a held component succeeds and pops exactly one slot *)
Lemma remove_pops_one s e :
  dense_ok s -> Store.has s e = true ->
  snd (Store.remove s e) = Ok tt /\
  Store.size (fst (Store.remove s e)) = pred (Store.size s).
Proof.
  intros Hok [i Hslot]%has_true.
  pose proof Hok as (Hlen & Hfwd & Hbwd)%dense_ok_alt.
  destruct (Hbwd _ _ Hslot) as (ei & Hei & _).
  pose proof (lookup_lt_Some _ _ _ Hei) as Hi.
  unfold Store.remove, Store.size. rewrite Hslot.
  destruct (lookup_lt_is_Some_2 (Store.dense s) (pred (length (Store.dense s))))
    as [cl ->]; [lia|].
  destruct (lookup_lt_is_Some_2 (Store.owner s) (pred (length (Store.dense s))))
    as [el ->]; [lia|].
  simpl. split; [done|]. rewrite length_take, length_insert. lia.
Qed.

Lemma store_step_dense_ok s (o : StoreOp C) : dense_ok s -> dense_ok (store_step s o).
Proof. destruct o; simpl; auto using add_dense_ok, remove_dense_ok. Qed.

Lemma filter_all {A} (P : A -> Prop) `{!forall x, Decision (P x)} (l : list A) :
  Forall P l -> filter P l = l.
Proof.
  induction 1 as [|x l Hx _ IH]; [done|].
  by rewrite filter_cons_True, IH.
Qed.

(** the owners after a removal are the owners of the other indices *)
Lemma remove_owner s e :
  dense_ok s ->
  Store.owner (fst (Store.remove s e)) ≡ₚ
  filter (fun e' => index e' <> index e) (Store.owner s).
Proof.
  intros Hok. pose proof Hok as (Hlen & Hfwd & Hbwd)%dense_ok_alt.
  unfold Store.remove.
  destruct (Store.slot_of s !! index e) as [i|] eqn:Hslot.
  - destruct (Hbwd _ _ Hslot) as (ei & Hei & Hk).
    pose proof (lookup_lt_Some _ _ _ Hei) as Hi.
    destruct (lookup_lt_is_Some_2 (Store.dense s) (pred (length (Store.dense s))))
      as [cl Hcl]; [lia|].
    destruct (lookup_lt_is_Some_2 (Store.owner s) (pred (length (Store.dense s))))
      as [el Hel]; [lia|].
    rewrite Hcl, Hel. simpl. rewrite Hlen in *.
    rewrite (swap_pop_perm _ _ _ _ Hei Hel).
    pose proof (dense_ok_NoDup_index _ Hok) as Hnd.
    apply list_elem_of_split_length in Hei as (a & b & Hab & ->).
    rewrite Hab in *. rewrite delete_middle, filter_app, filter_cons_False by auto.
    rewrite fmap_app, fmap_cons in Hnd.
    apply NoDup_app in Hnd as (_ & Ha & [Hb _]%NoDup_cons).
    rewrite !filter_all; [done| |].
    + apply Forall_forall. intros x Hx Heq. apply Hb.
      rewrite Hk, <- Heq. by apply list_elem_of_fmap_2.
    + apply Forall_forall. intros x Hx Heq. apply (Ha (index x)).
      * by apply list_elem_of_fmap_2.
      * rewrite Heq, <- Hk. left.
  - simpl. rewrite filter_all; [done|].
    apply Forall_forall. intros x [j Hj]%list_elem_of_lookup_1 Heq.
    apply Hfwd in Hj. congruence.
Qed.

(** the store's owners and the reference ledger agree, request after request *)
Lemma store_step_ledger s held (o : StoreOp C) :
  dense_ok s -> Store.owner s ≡ₚ held ->
  Store.owner (store_step s o) ≡ₚ ledger_step held o.
Proof.
  intros Hok Hperm. destruct o as [e c | e]; simpl.
  - unfold Store.add. pose proof (has_owner s e Hok) as Hhas.
    rewrite Hperm in Hhas. destruct (Store.has s e).
    + rewrite bool_decide_eq_true_2 by (by apply Hhas). done.
    + rewrite bool_decide_eq_false_2 by (intros ?%Hhas; done). simpl.
      by rewrite Hperm.
  - rewrite remove_owner by done. by rewrite Hperm.
Qed.

Lemma store_run_ledger (ops : list (StoreOp C)) :
  dense_ok (store_run ops) /\ Store.owner (store_run ops) ≡ₚ holders ops.
Proof.
  unfold store_run, holders.
  induction ops as [|o ops IH] using rev_ind.
  - split; [apply dense_ok_empty | done].
  - rewrite !fold_left_app. simpl. destruct IH as [Hok Hperm].
    split; [by apply store_step_dense_ok | by apply store_step_ledger].
Qed.

End StoreFacts.

Section Ledger.
Context {C : Type}.

Lemma filter_agree {A} (P Q : A -> Prop) `{!forall a, Decision (P a)}
    `{!forall a, Decision (Q a)} (l : list A) :
  Forall (fun a => P a <-> Q a) l -> filter P l = filter Q l.
Proof.
  induction 1 as [|a l Ha _ IH]; [done|].
  rewrite !filter_cons, IH. destruct (decide (P a)), (decide (Q a)); tauto.
Qed.

Lemma holders_handles (ops : list (StoreOp C)) e :
  e ∈ holders ops -> e ∈ handle_of <$> ops.
Proof.
  unfold holders. induction ops as [|o ops IH] using rev_ind.
  - intros H. by apply elem_of_nil in H.
  - rewrite fold_left_app, fmap_app, elem_of_app. simpl.
    destruct o as [e' c | e']; simpl.
    + case_bool_decide; [by left; apply IH|].
      rewrite elem_of_app, !list_elem_of_singleton. intros [H' | ->]; auto.
    + rewrite list_elem_of_filter. intros [_ H']. auto.
Qed.

(** with one handle per slot, both ledgers are the same *)
Lemma holders_distinct_slots (ops : list (StoreOp C)) :
  distinct_slots ops -> holders ops = holders_by_handle ops.
Proof.
  unfold holders, holders_by_handle.
  induction ops as [|o ops IH] using rev_ind; [done|]. intros Hd.
  assert (distinct_slots ops) as Hd'.
  { intros e e' He He'. apply Hd; rewrite fmap_app, elem_of_app; by left. }
  rewrite !fold_left_app. simpl. rewrite <- (IH Hd').
  assert (forall e', e' ∈ holders ops -> index e' = index (handle_of o) ->
                     e' = handle_of o) as Hsame.
  { intros e' He' Hidx. apply Hd; [| |done]; rewrite fmap_app, elem_of_app.
    - left. by apply holders_handles.
    - right. simpl. left. }
  fold (holders ops). destruct o as [e c | e]; simpl in *.
  - assert (index e ∈ index <$> holders ops <-> e ∈ holders ops) as Hiff.
    { rewrite list_elem_of_fmap. split.
      - intros (e' & Hidx & He'). by rewrite <- (Hsame e' He' (eq_sym Hidx)).
      - intros He. eauto. }
    destruct (decide (e ∈ holders ops)) as [Hin | Hout].
    + by rewrite !bool_decide_eq_true_2 by tauto.
    + by rewrite !bool_decide_eq_false_2 by tauto.
  - apply filter_agree, Forall_forall. intros e' He'. split.
    + intros Hne ->. done.
    + intros Hne Hidx. by apply Hne, Hsame.
Qed.

End Ledger.

(** C3. After every finite sequence of add and remove requests on a
    Component Store, the dense array has no unused slot (a removal pops
    exactly one slot and leaves the store packed), and [iterate] yields
    exactly the entities holding the component, each exactly once. *)
Theorem store_density_invariant {C} (ops : list (StoreOp C)) :
  let s := store_run ops in
  dense_ok s /\
  (forall e, Store.has s e = true ->
     snd (Store.remove s e) = Ok tt /\
     Store.size (fst (Store.remove s e)) = pred (Store.size s) /\
     dense_ok (fst (Store.remove s e))) /\
  NoDup (fst <$> Store.iterate s) /\
  forall e, e ∈ fst <$> Store.iterate s <-> e ∈ holders ops.
Proof.
  intros s. destruct (store_run_ledger ops) as [Hok Hperm]. fold s in Hok, Hperm.
  rewrite iterate_entities by done.
  split; [done | split; [|split]].
  - intros e He. destruct (remove_pops_one s e Hok He) as [Hr Hsize].
    split; [done|]. split; [done | by apply remove_dense_ok].
  - by apply dense_ok_NoDup.
  - intros e. by rewrite Hperm.
Qed.


(** * Entity Registry *)
Section RegistryFacts.
Implicit Types (r : Registry.t) (e : Entity).

Lemma isAlive_spec r e :
  Registry.isAlive r e = true <->
  Registry.generations r !! index e = Some (generation e).
Proof.
  unfold Registry.isAlive.
  destruct (Registry.generations r !! index e) as [g|]; [|done].
  rewrite Nat.eqb_eq. split; congruence.
Qed.

Lemma superseded_not_alive r e : superseded r e -> Registry.isAlive r e = false.
Proof.
  intros (g & Hg & Hlt). apply not_true_is_false. intros Ha%isAlive_spec.
  rewrite Hg in Ha. simplify_eq. lia.
Qed.

(** stored generations never decrease *)
Definition gen_le (r r' : Registry.t) : Prop :=
  forall i g, Registry.generations r !! i = Some g ->
    exists g', Registry.generations r' !! i = Some g' /\ g <= g'.

Lemma gen_le_refl r : gen_le r r.
Proof. intros i g Hg. eauto. Qed.

Lemma gen_le_trans r1 r2 r3 : gen_le r1 r2 -> gen_le r2 r3 -> gen_le r1 r3.
Proof.
  intros H12 H23 i g Hg. destruct (H12 _ _ Hg) as (g' & Hg' & Hle).
  destruct (H23 _ _ Hg') as (g'' & Hg'' & Hle'). exists g''. split; [done | lia].
Qed.

Lemma create_gen_le r : gen_le r (snd (Registry.create r)).
Proof.
  unfold Registry.create. destruct (Registry.free_list r); simpl.
  - intros i g Hg. exists g. split; [by apply lookup_app_l_Some | done].
  - intros i g Hg. eauto.
Qed.

Lemma destroy_gen_le r e : gen_le r (fst (Registry.destroy r e)).
Proof.
  unfold Registry.destroy. destruct (Registry.isAlive r e) eqn:Ha; simpl;
    [|apply gen_le_refl].
  apply isAlive_spec in Ha. intros i g Hg.
  destruct (decide (i = index e)) as [->|Hne].
  - exists (S (generation e)). split; [|simplify_eq; lia].
    simpl. apply list_lookup_insert_eq. by eapply lookup_lt_Some.
  - exists g. split; [|done]. simpl. by rewrite list_lookup_insert_ne.
Qed.

Lemma reg_step_gen_le r o : gen_le r (reg_step r o).
Proof. destruct o; simpl; auto using create_gen_le, destroy_gen_le. Qed.

Lemma reg_run_gen_le ops r : gen_le r (reg_run ops r).
Proof.
  revert r. induction ops as [|o ops IH]; intros r; simpl.
  - apply gen_le_refl.
  - eapply gen_le_trans; [apply reg_step_gen_le | apply IH].
Qed.

Lemma superseded_gen_le r r' e : gen_le r r' -> superseded r e -> superseded r' e.
Proof.
  intros Hle (g & Hg & Hlt). destruct (Hle _ _ Hg) as (g' & Hg' & Hle').
  exists g'. split; [done | lia].
Qed.

Lemma destroy_superseded r e :
  Registry.isAlive r e = true -> superseded (fst (Registry.destroy r e)) e.
Proof.
  intros Ha. unfold Registry.destroy. rewrite Ha. simpl.
  apply isAlive_spec in Ha. exists (S (generation e)). split; [|lia].
  apply list_lookup_insert_eq. by eapply lookup_lt_Some.
Qed.

(** a later [create] on the slot of a superseded handle issues a newer generation *)
Lemma create_superseded r e :
  superseded r e -> index (fst (Registry.create r)) = index e ->
  generation e < generation (fst (Registry.create r)).
Proof.
  intros (g & Hg & Hlt). unfold Registry.create.
  destruct (Registry.free_list r) as [|i rest]; simpl.
  - intros Heq. apply lookup_lt_Some in Hg. lia.
  - intros ->. by rewrite Hg.
Qed.

End RegistryFacts.

Section StaleHandles.
Context {C : Type}.
Implicit Types (w : World C) (e : Entity).

Lemma stale_handle_refused w e (T : TypeKey) (c : C) :
  isAlive w e = false ->
  destroyEntity w e = (w, Err StaleEntity) /\
  addComponent w T e c = (w, Err StaleEntity) /\
  removeComponent w T e = (w, Err StaleEntity) /\
  setComponent w T e c = (w, Err StaleEntity) /\
  getComponent w T e = Err StaleEntity.
Proof.
  intros Ha. unfold destroyEntity, addComponent, removeComponent, setComponent,
    getComponent. rewrite Ha. done.
Qed.

End StaleHandles.

(** C2. Once a live handle [e] has been destroyed, whatever the registry
    does next (including a [create] that reuses the slot, which issues a
    strictly newer generation), [isAlive e] is false, a second [destroy e]
    returns [StaleEntity], and every World operation called with [e] returns
    [StaleEntity] and leaves the World as it is. *)
Theorem generation_safety {C} (r : Registry.t) (e : Entity) (ops : list RegOp) :
  Registry.isAlive r e = true ->
  let r' := reg_run ops (fst (Registry.destroy r e)) in
  Registry.isAlive r' e = false /\
  Registry.destroy r' e = (r', Err StaleEntity) /\
  (index (fst (Registry.create r')) = index e ->
   generation e < generation (fst (Registry.create r')) /\
   Registry.isAlive (snd (Registry.create r')) e = false) /\
  forall (w : World C) (T : TypeKey) (c : C),
    registry w = r' ->
    destroyEntity w e = (w, Err StaleEntity) /\
    addComponent w T e c = (w, Err StaleEntity) /\
    removeComponent w T e = (w, Err StaleEntity) /\
    setComponent w T e c = (w, Err StaleEntity) /\
    getComponent w T e = Err StaleEntity.
Proof.
  intros Ha r'.
  assert (superseded r' e) as Hs.
  { eapply superseded_gen_le; [apply reg_run_gen_le | by apply destroy_superseded]. }
  pose proof (superseded_not_alive _ _ Hs) as Hdead.
  split; [done | split; [|split]].
  - unfold Registry.destroy. by rewrite Hdead.
  - intros Hidx. split; [by apply create_superseded|].
    apply superseded_not_alive. eapply superseded_gen_le; [apply create_gen_le | done].
  - intros w T c Hw. apply stale_handle_refused. unfold isAlive. by rewrite Hw.
Qed.

(** * Query Engine *)
Section QueryFacts.
Context {C : Type}.
Implicit Types (w : World C) (s : Store.t C) (e : Entity) (sig : gset TypeKey).

Lemma entities_alive (r : Registry.t) e :
  e ∈ Registry.entities r <-> Registry.isAlive r e = true.
Proof.
  unfold Registry.entities. rewrite elem_of_lookup_imap, isAlive_spec. split.
  - intros (i & g & -> & Hg). done.
  - intros Hg. exists (index e), (generation e). by destruct e.
Qed.

Lemma entities_NoDup (r : Registry.t) : NoDup (Registry.entities r).
Proof.
  apply NoDup_alt. intros i j e. unfold Registry.entities.
  rewrite !list_lookup_imap_Some. intros (g & _ & ->) (g' & _ & [= -> _]). done.
Qed.

Lemma pick_smallest_perm s rest d others :
  pick_smallest s rest = (d, others) -> d :: others ≡ₚ s :: rest.
Proof.
  revert s d others. induction rest as [|s' rest IH]; intros s d others; simpl.
  - intros [= <- <-]. done.
  - destruct (Nat.ltb _ _).
    + destruct (pick_smallest s' rest) as [m o] eqn:Hp. intros [= <- <-].
      by rewrite (Permutation_swap s m o), (IH _ _ _ Hp).
    + destruct (pick_smallest s rest) as [m o] eqn:Hp. intros [= <- <-].
      rewrite (Permutation_swap s' m o), (IH _ _ _ Hp). apply Permutation_swap.
Qed.

(** in a consistent World, a live entity [has] a component exactly when the
    store lists it *)
Lemma world_ok_has w T s e :
  world_ok w -> stores w !! T = Some s -> isAlive w e = true ->
  (Store.has s e = true <-> e ∈ Store.owner s).
Proof.
  intros Hok Hs Ha. destruct (Hok _ _ Hs) as [Hd Hlive]. split.
  - intros (e' & Hidx & He')%(has_owner s e Hd)%list_elem_of_fmap.
    rewrite Forall_forall in Hlive. pose proof (Hlive _ He') as Ha'.
    unfold isAlive in *. apply isAlive_spec in Ha, Ha'.
    rewrite Hidx, Ha' in Ha. destruct e, e'; simplify_eq/=. done.
  - by apply dense_ok_has_owner.
Qed.

Lemma world_ok_owner_alive w T s e :
  world_ok w -> stores w !! T = Some s -> e ∈ Store.owner s -> isAlive w e = true.
Proof.
  intros Hok Hs He. destruct (Hok _ _ Hs) as [_ Hlive].
  rewrite Forall_forall in Hlive. auto.
Qed.

Lemma held_types_spec w e T :
  T ∈ held_types w e <-> exists s, stores w !! T = Some s /\ e ∈ Store.owner s.
Proof.
  unfold held_types. rewrite elem_of_dom. unfold is_Some.
  setoid_rewrite map_lookup_filter_Some. simpl. naive_solver.
Qed.

Lemma signature_stores_spec w sig ss :
  signature_stores w sig = Some ss <->
  Forall2 (fun T s => stores w !! T = Some s) (elements sig) ss.
Proof. apply mapM_Some. Qed.

Lemma signature_stores_registered w sig :
  sig ⊆ dom (stores w) -> is_Some (signature_stores w sig).
Proof.
  intros Hsub. apply mapM_is_Some, Forall_forall. intros T HT%elem_of_elements.
  simpl. apply elem_of_dom. auto.
Qed.

(** membership in every store of the signature, through [Forall2] *)
Lemma signature_all w sig ss (P : Store.t C -> Prop) :
  Forall2 (fun T s => stores w !! T = Some s) (elements sig) ss ->
  (Forall P ss <-> forall T, T ∈ sig -> exists s, stores w !! T = Some s /\ P s).
Proof.
  intros HF. split.
  - intros HP T HT%elem_of_elements.
    apply list_elem_of_lookup_1 in HT as [i Hi].
    destruct (Forall2_lookup_l _ _ _ _ _ HF Hi) as (s & Hs & Hst).
    exists s. split; [done|]. rewrite Forall_lookup in HP. eauto.
  - intros HP. apply Forall_lookup. intros i s Hs.
    destruct (Forall2_lookup_r _ _ _ _ _ HF Hs) as (T & HT & Hst).
    destruct (HP T) as (s' & Hs' & Hp).
    + apply elem_of_elements. by eapply list_elem_of_lookup_2.
    + congruence.
Qed.

(** what [query] returns, entity by entity *)
Lemma query_spec w sig :
  world_ok w -> sig ⊆ dom (stores w) ->
  exists l, query w sig = Ok l /\ NoDup l /\
    forall e, e ∈ l <->
      isAlive w e = true /\
      forall T, T ∈ sig -> exists s, stores w !! T = Some s /\ e ∈ Store.owner s.
Proof.
  intros Hok Hsub. unfold query.
  destruct (signature_stores_registered w sig Hsub) as [ss Hss]. rewrite Hss.
  apply signature_stores_spec in Hss.
  destruct ss as [|s rest].
  - apply Forall2_nil_inv_r, elements_empty_inv in Hss.
    apply leibniz_equiv in Hss. subst sig.
    eexists. split; [done|]. split; [apply entities_NoDup|].
    intros e. rewrite entities_alive. unfold isAlive.
    split; [intros Ha; split; [done | intros T HT; by apply not_elem_of_empty in HT] | tauto].
  - destruct (pick_smallest s rest) as [d others] eqn:Hp.
    apply pick_smallest_perm in Hp.
    eexists. split; [done|]. split.
    + apply NoDup_filter.
      assert (d ∈ s :: rest) as Hd by (rewrite <- Hp; left).
      apply list_elem_of_lookup_1 in Hd as [i Hi].
      destruct (Forall2_lookup_r _ _ _ _ _ Hss Hi) as (T & _ & HT).
      apply dense_ok_NoDup. by destruct (Hok _ _ HT).
    + intros e. rewrite list_elem_of_filter, forallb_forall.
      setoid_rewrite <- list_elem_of_In.
      rewrite <- (signature_all w sig (s :: rest) (fun s' => e ∈ Store.owner s') Hss).
      rewrite <- Hp, Forall_cons, Forall_forall.
      assert (forall s', s' ∈ s :: rest -> exists T, stores w !! T = Some s') as Hreg.
      { intros s' [i Hi]%list_elem_of_lookup_1.
        destruct (Forall2_lookup_r _ _ _ _ _ Hss Hi) as (T & _ & HT). eauto. }
      split.
      * intros [Hothers Hd].
        destruct (Hreg d) as [Td HTd]; [rewrite <- Hp; left|].
        pose proof (world_ok_owner_alive _ _ _ _ Hok HTd Hd) as Ha.
        split; [done|]. split; [done|]. intros s' Hs'.
        destruct (Hreg s') as [T' HT']; [rewrite <- Hp; by right|].
        apply (world_ok_has w T' s' e Hok HT' Ha). auto.
      * intros [Ha [Hd Hothers]]. split; [|done]. intros s' Hs'.
        destruct (Hreg s') as [T' HT']; [rewrite <- Hp; by right|].
        apply (world_ok_has w T' s' e Hok HT' Ha). auto.
Qed.

Lemma naive_query_spec w sig e :
  e ∈ naive_query w sig <->
  isAlive w e = true /\
  forall T, T ∈ sig -> exists s, stores w !! T = Some s /\ e ∈ Store.owner s.
Proof.
  unfold naive_query. rewrite list_elem_of_filter, entities_alive.
  unfold isAlive. rewrite elem_of_subseteq. setoid_rewrite held_types_spec.
  tauto.
Qed.

Lemma query_unregistered w sig :
  ~ sig ⊆ dom (stores w) -> query w sig = Err UnknownComponentType.
Proof.
  intros Hsub. unfold query.
  destruct (signature_stores w sig) as [ss|] eqn:Hss; [|done].
  exfalso. apply Hsub. intros T HT. apply elem_of_dom.
  assert (is_Some (signature_stores w sig)) as Hs by eauto.
  apply mapM_is_Some in Hs. rewrite Forall_forall in Hs.
  apply Hs. by apply elem_of_elements.
Qed.

End QueryFacts.

Section InWorld.
Context {C : Type}.

(** in a consistent World, a store's [iterate] lists, each once, the live
    entities that [has] accepts *)
Lemma iterate_in_world (w : World C) (T : TypeKey) (s : Store.t C) :
  world_ok w -> stores w !! T = Some s ->
  NoDup (fst <$> Store.iterate s) /\
  forall e, e ∈ fst <$> Store.iterate s <->
            isAlive w e = true /\ Store.has s e = true.
Proof.
  intros Hok Hs. destruct (Hok _ _ Hs) as [Hd _].
  rewrite iterate_entities by done. split; [by apply dense_ok_NoDup|].
  intros e. split.
  - intros He. split; [by eapply world_ok_owner_alive | by apply dense_ok_has_owner].
  - intros [Ha Hhas]. by apply (world_ok_has w T s e Hok Hs Ha).
Qed.

End InWorld.


(** * World consistency *)
Section WorldOk.
Context {C : Type}.
Implicit Types (w : World C) (s : Store.t C) (e : Entity) (T : TypeKey) (c : C).

Lemma world_ok_alt w :
  world_ok w <->
  forall T s, stores w !! T = Some s ->
    dense_ok s /\ forall e, e ∈ Store.owner s -> Registry.isAlive (registry w) e = true.
Proof.
  unfold world_ok, map_Forall. setoid_rewrite Forall_forall. reflexivity.
Qed.

Lemma world_ok_same w w' :
  registry w' = registry w -> stores w' = stores w -> world_ok w -> world_ok w'.
Proof. rewrite !world_ok_alt. intros -> ->. done. Qed.

Lemma world_ok_empty : world_ok (@empty_world C).
Proof. apply world_ok_alt. intros T s. simpl. by rewrite lookup_empty. Qed.

Lemma registerComponent_ok w T : world_ok w -> world_ok (registerComponent w T).
Proof.
  intros Hok. unfold registerComponent. destruct (stores w !! T) eqn:HT; [done|].
  apply world_ok_alt. intros T' s. simpl. rewrite lookup_insert.
  case_decide.
  - intros [= <-]. split; [apply dense_ok_empty|]. simpl. intros e He. by apply elem_of_nil in He.
  - intros Hs. by apply (proj1 (world_ok_alt w) Hok T').
Qed.

(** replacing one store by a packed one whose owners are live *)
Lemma world_ok_insert w T s :
  world_ok w -> dense_ok s ->
  (forall e, e ∈ Store.owner s -> Registry.isAlive (registry w) e = true) ->
  world_ok (with_stores w (<[T := s]> (stores w))).
Proof.
  intros Hok Hd Hlive. apply world_ok_alt. intros T' s'. simpl.
  rewrite lookup_insert. case_decide.
  - intros [= <-]. done.
  - intros Hs. by apply (proj1 (world_ok_alt w) Hok T').
Qed.

Lemma alive_prefix (r r' : Registry.t) e :
  Registry.generations r `prefix_of` Registry.generations r' ->
  Registry.isAlive r e = true -> Registry.isAlive r' e = true.
Proof.
  rewrite !isAlive_spec. intros Hp Hg. by eapply prefix_lookup_Some.
Qed.

Lemma create_prefix (r : Registry.t) :
  Registry.generations r `prefix_of` Registry.generations (snd (Registry.create r)).
Proof.
  unfold Registry.create. destruct (Registry.free_list r); simpl.
  - by apply prefix_app_r.
  - done.
Qed.

Lemma createEntity_registry w :
  registry (fst (createEntity w)) = snd (Registry.create (registry w)) /\
  stores (fst (createEntity w)) = stores w /\
  pending (fst (createEntity w)) = pending w.
Proof. unfold createEntity. by destruct (Registry.create (registry w)). Qed.

Lemma createEntity_ok w : world_ok w -> world_ok (fst (createEntity w)).
Proof.
  rewrite !world_ok_alt. intros Hok T s.
  destruct (createEntity_registry w) as (-> & -> & _). intros Hs.
  destruct (Hok _ _ Hs) as [Hd Hlive]. split; [done|].
  intros e He. eapply alive_prefix; [apply create_prefix | auto].
Qed.

Lemma add_owner s e c x :
  x ∈ Store.owner (fst (Store.add s e c)) -> x ∈ Store.owner s \/ x = e.
Proof.
  unfold Store.add. destruct (Store.has s e); simpl; [auto|].
  rewrite elem_of_app, list_elem_of_singleton. done.
Qed.

Lemma set_dense_ok s e c : dense_ok s -> dense_ok (fst (Store.set s e c)).
Proof.
  unfold Store.set. destruct (Store.slot_of s !! index e); [|done].
  unfold dense_ok. simpl. by rewrite length_insert.
Qed.

Lemma set_owner s e c : Store.owner (fst (Store.set s e c)) = Store.owner s.
Proof. unfold Store.set. by destruct (Store.slot_of s !! index e). Qed.

Lemma set_slot_of s e c : Store.slot_of (fst (Store.set s e c)) = Store.slot_of s.
Proof. unfold Store.set. by destruct (Store.slot_of s !! index e). Qed.

Lemma remove_owner_subseteq s e x :
  dense_ok s -> x ∈ Store.owner (fst (Store.remove s e)) ->
  x ∈ Store.owner s /\ index x <> index e.
Proof.
  intros Hd. rewrite (remove_owner s e Hd), list_elem_of_filter. tauto.
Qed.

Lemma addComponent_ok w T e c : world_ok w -> world_ok (fst (addComponent w T e c)).
Proof.
  intros Hok. unfold addComponent.
  destruct (isAlive w e) eqn:Ha; [|done].
  destruct (stores w !! T) as [s|] eqn:Hs; [|done].
  destruct (Store.has s e); [done|].
  destruct (Nat.ltb 0 (iterating w)); [done|]. simpl.
  destruct (proj1 (world_ok_alt w) Hok _ _ Hs) as [Hd Hlive].
  apply world_ok_insert; [done | by apply add_dense_ok |].
  intros x [Hx | ->]%add_owner; auto.
Qed.

Lemma removeComponent_ok w T e : world_ok w -> world_ok (fst (removeComponent w T e)).
Proof.
  intros Hok. unfold removeComponent.
  destruct (isAlive w e); [|done]. destruct (stores w !! T) as [s|]; [|done].
  by destruct (Store.has s e).
Qed.

Lemma destroyEntity_ok w e : world_ok w -> world_ok (fst (destroyEntity w e)).
Proof. intros Hok. unfold destroyEntity. by destruct (isAlive w e). Qed.

Lemma setComponent_ok w T e c : world_ok w -> world_ok (fst (setComponent w T e c)).
Proof.
  intros Hok. unfold setComponent.
  destruct (isAlive w e) eqn:Ha; [|done].
  destruct (stores w !! T) as [s|] eqn:Hs; [|done].
  destruct (Store.has s e); [|done]. simpl.
  destruct (proj1 (world_ok_alt w) Hok _ _ Hs) as [Hd Hlive].
  apply world_ok_insert; [done | by apply set_dense_ok |].
  rewrite set_owner. done.
Qed.

Lemma enter_ok w : world_ok w -> world_ok (enter w).
Proof. by apply world_ok_same. Qed.

Lemma leave_ok w : world_ok w -> world_ok (leave w).
Proof. by apply world_ok_same. Qed.

(** *** the tick boundary keeps the World consistent *)

Lemma apply_destroy_ok w e : world_ok w -> world_ok (apply_destroy w e).
Proof.
  intros Hok. unfold apply_destroy, Registry.destroy.
  destruct (Registry.isAlive (registry w) e) eqn:Ha; [|done].
  apply isAlive_spec in Ha.
  apply world_ok_alt. intros T s'. simpl. rewrite lookup_fmap.
  destruct (stores w !! T) as [s|] eqn:Hs; [|done]. intros [= <-].
  destruct (proj1 (world_ok_alt w) Hok _ _ Hs) as [Hd Hlive].
  split; [by apply remove_dense_ok|].
  intros x [Hx Hne]%remove_owner_subseteq; [|done].
  apply Hlive in Hx. apply isAlive_spec in Hx. apply isAlive_spec. simpl.
  by rewrite list_lookup_insert_ne.
Qed.

Lemma apply_op_ok w (o : Op C) : world_ok w -> world_ok (apply_op w o).
Proof.
  intros Hok. destruct o as [e | T e | T e c]; simpl.
  - by apply apply_destroy_ok.
  - destruct (isAlive w e); [|done]. destruct (stores w !! T) as [s|] eqn:Hs; [|done].
    destruct (proj1 (world_ok_alt w) Hok _ _ Hs) as [Hd Hlive].
    apply world_ok_insert; [done | by apply remove_dense_ok |].
    intros x [Hx _]%remove_owner_subseteq; auto.
  - destruct (isAlive w e) eqn:Ha; [|done].
    destruct (stores w !! T) as [s|] eqn:Hs; [|done].
    destruct (proj1 (world_ok_alt w) Hok _ _ Hs) as [Hd Hlive].
    apply world_ok_insert; [done | by apply add_dense_ok |].
    intros x [Hx | ->]%add_owner; auto.
Qed.

Lemma fold_apply_op_ok (q : list (Op C)) w :
  world_ok w -> world_ok (fold_left apply_op q w).
Proof.
  revert w. induction q as [|o q IH]; intros w Hok; simpl; [done|].
  by apply IH, apply_op_ok.
Qed.

Lemma flush_ok w : world_ok w -> world_ok (flush w).
Proof.
  intros Hok. unfold flush.
  eapply world_ok_same; [| |by apply (fold_apply_op_ok (pending w))]; done.
Qed.

(** *** running systems keeps the World consistent *)

Lemma for_each_ok {A} (f : A -> World C -> World C * Outcome) (l : list A) w :
  (forall a w0, a ∈ l -> world_ok w0 -> world_ok (fst (f a w0))) ->
  world_ok w -> world_ok (fst (for_each f l w)).
Proof.
  revert w. induction l as [|a l IH]; intros w Hf Hok; simpl; [done|].
  pose proof (Hf a w (list_elem_of_here _ _) Hok) as Hok1.
  destruct (f a w) as [w1 [|msg]]; simpl in *; [|done].
  apply IH; [|done]. intros a' w0 Ha'. apply Hf. by right.
Qed.

Lemma exec_ok (p : Prog C) w : world_ok w -> world_ok (fst (exec p w)).
Proof.
  revert w. induction p as [| msg | k IH | e k IH | T e c k IH | T e k IH
    | T e k IH | T e c k IH | sig k IH | sig body IHb k IH]; intros w Hok; simpl;
    try done.
  - pose proof (createEntity_ok w Hok) as Hok1.
    destruct (createEntity w) as [w1 e1]. by apply IH.
  - pose proof (destroyEntity_ok w e Hok) as Hok1.
    destruct (destroyEntity w e) as [w1 r]. by apply IH.
  - pose proof (addComponent_ok w T e c Hok) as Hok1.
    destruct (addComponent w T e c) as [w1 r]. by apply IH.
  - pose proof (removeComponent_ok w T e Hok) as Hok1.
    destruct (removeComponent w T e) as [w1 r]. by apply IH.
  - by apply IH.
  - pose proof (setComponent_ok w T e c Hok) as Hok1.
    destruct (setComponent w T e c) as [w1 r]. by apply IH.
  - by apply IH.
  - destruct (query w sig) as [ents|err]; [|by apply IH].
    pose proof (for_each_ok (fun e w0 => exec (body e) w0) ents (enter w)
                  (fun a w0 _ => IHb a w0) (enter_ok w Hok)) as Hok1.
    destruct (for_each _ ents (enter w)) as [w1 [|msg]]; simpl in *.
    + by apply IH, leave_ok.
    + by apply leave_ok.
Qed.

Lemma run_systems_ok (l : list (Entry C)) dt w :
  world_ok w -> world_ok (fst (run_systems l dt w)).
Proof.
  revert w. induction l as [|x l IH]; intros w Hok; simpl; [done|].
  pose proof (exec_ok (sys_logic (entry_system x) dt) w Hok) as Hok1.
  destruct (exec _ w) as [w1 o]. simpl in *.
  specialize (IH w1 Hok1). by destruct (run_systems l dt w1).
Qed.

Lemma tick_ok w dt : world_ok w -> world_ok (fst (tick w dt)).
Proof.
  intros Hok. unfold tick.
  pose proof (run_systems_ok (systems w) dt w Hok) as Hok1.
  destruct (run_systems _ dt w) as [w1 report]. by apply flush_ok.
Qed.

Lemma phase_step_ok w (st : PhaseStep C) : world_ok w -> world_ok (phase_step w st).
Proof. destruct st; simpl; auto using exec_ok, enter_ok, leave_ok. Qed.

Lemma run_phase_ok (steps : list (PhaseStep C)) w :
  world_ok w -> world_ok (run_phase steps w).
Proof.
  revert w. induction steps as [|st steps IH]; intros w Hok; simpl; [done|].
  by apply IH, phase_step_ok.
Qed.

Lemma api_step_ok w (call : ApiCall C) : world_ok w -> world_ok (api_step w call).
Proof.
  destruct call; simpl;
    auto using registerComponent_ok, createEntity_ok, destroyEntity_ok,
      addComponent_ok, removeComponent_ok, setComponent_ok, tick_ok.
Qed.

(** every World the API can build is consistent *)
Lemma api_run_ok (calls : list (ApiCall C)) : world_ok (api_run calls).
Proof.
  unfold api_run. induction calls as [|call calls IH] using rev_ind.
  - apply world_ok_empty.
  - rewrite fold_left_app. by apply api_step_ok.
Qed.

End WorldOk.

(** * Deferred structural mutation *)
Section Deferred.
Context {C : Type}.
Implicit Types (w : World C) (s : Store.t C) (e : Entity) (T : TypeKey) (c : C).

(** ** Growth during the systems' turns *)

Lemma has_mono s s' e :
  Store.slot_of s ⊆ Store.slot_of s' -> Store.has s e = true -> Store.has s' e = true.
Proof.
  rewrite !has_true. intros Hsub [i Hi]. exists i. by eapply lookup_weaken.
Qed.

Lemma grows_refl w : grows w w.
Proof.
  split; [done | split].
  - intros T s Hs. exists s. done.
  - exists []. split; [by rewrite app_nil_r|]. intros T e c s H. by apply elem_of_nil in H.
Qed.

Lemma grows_trans w1 w2 w3 : grows w1 w2 -> grows w2 w3 -> grows w1 w3.
Proof.
  intros (Hg1 & Hs1 & x1 & Hp1 & Hx1) (Hg2 & Hs2 & x2 & Hp2 & Hx2).
  split; [by etrans | split].
  - intros T s Hs. destruct (Hs1 _ _ Hs) as (s' & Hs' & Ho & Hm).
    destruct (Hs2 _ _ Hs') as (s'' & Hs'' & Ho' & Hm').
    exists s''. split; [done|]. split; by etrans.
  - exists (x1 ++ x2). split; [by rewrite Hp2, Hp1, app_assoc|].
    intros T e c s [Hin | Hin]%elem_of_app Hs; [by eapply Hx1|].
    destruct (Hs1 _ _ Hs) as (s' & Hs' & _ & Hm).
    apply not_true_is_false. intros Hhas%(has_mono s s' e Hm).
    by rewrite (Hx2 _ _ _ _ Hin Hs') in Hhas.
Qed.

(** a World that differs in the iteration depth only *)
Lemma grows_same w w' :
  registry w' = registry w -> stores w' = stores w -> pending w' = pending w ->
  grows w w'.
Proof.
  intros Hr Hs Hp. split; [by rewrite Hr | split].
  - intros T s. rewrite Hs. intros HT. exists s. done.
  - exists []. rewrite Hp, app_nil_r. split; [done|].
    intros T e c s H. by apply elem_of_nil in H.
Qed.

(** a World whose queue got one more operation *)
Lemma grows_defer w (o : Op C) :
  (forall T e c s, o = OpAdd T e c -> stores w !! T = Some s -> Store.has s e = false) ->
  grows w (defer w o).
Proof.
  intros Ho. split; [done | split].
  - intros T s Hs. exists s. done.
  - exists [o]. split; [done|]. intros T e c s Hin%list_elem_of_singleton. eauto.
Qed.

(** a World one of whose stores got more entries *)
Lemma grows_insert w T s s' :
  stores w !! T = Some s ->
  Store.owner s ⊆ Store.owner s' -> Store.slot_of s ⊆ Store.slot_of s' ->
  grows w (with_stores w (<[T := s']> (stores w))).
Proof.
  intros Hs Ho Hm. split; [done | split].
  - intros T' s0 Hs0. simpl. rewrite lookup_insert. case_decide.
    + simplify_eq. exists s'. done.
    + exists s0. done.
  - exists []. simpl. rewrite app_nil_r. split; [done|].
    intros T' e c s0 H. by apply elem_of_nil in H.
Qed.

Lemma createEntity_grows w : grows w (fst (createEntity w)).
Proof.
  destruct (createEntity_registry w) as (Hr & Hs & Hp).
  split; [rewrite Hr; apply create_prefix | split].
  - intros T s. rewrite Hs. intros HT. exists s. done.
  - exists []. rewrite Hp, app_nil_r. split; [done|].
    intros T e c s H. by apply elem_of_nil in H.
Qed.

Lemma destroyEntity_grows w e : grows w (fst (destroyEntity w e)).
Proof.
  unfold destroyEntity. destruct (isAlive w e); [|apply grows_refl].
  apply grows_defer. discriminate.
Qed.

Lemma removeComponent_grows w T e : grows w (fst (removeComponent w T e)).
Proof.
  unfold removeComponent. destruct (isAlive w e); [|apply grows_refl].
  destruct (stores w !! T) as [s|]; [|apply grows_refl].
  destruct (Store.has s e); [|apply grows_refl].
  apply grows_defer. discriminate.
Qed.

Lemma addComponent_grows w T e c : grows w (fst (addComponent w T e c)).
Proof.
  unfold addComponent. destruct (isAlive w e); [|apply grows_refl].
  destruct (stores w !! T) as [s|] eqn:Hs; [|apply grows_refl].
  destruct (Store.has s e) eqn:Hhas; [apply grows_refl|].
  destruct (Nat.ltb 0 (iterating w)); simpl.
  - apply grows_defer. intros T' e' c' s' [= -> -> ->] Hs'. by simplify_eq.
  - apply (grows_insert w T s); [done | |]; unfold Store.add; rewrite Hhas; simpl.
    + intros x Hx. apply elem_of_app. by left.
    + apply insert_subseteq. by apply has_false.
Qed.

Lemma setComponent_grows w T e c : grows w (fst (setComponent w T e c)).
Proof.
  unfold setComponent. destruct (isAlive w e); [|apply grows_refl].
  destruct (stores w !! T) as [s|] eqn:Hs; [|apply grows_refl].
  destruct (Store.has s e); [|apply grows_refl]. simpl.
  apply (grows_insert w T s); [done | by rewrite set_owner | by rewrite set_slot_of].
Qed.

Lemma for_each_grows {A} (f : A -> World C -> World C * Outcome) (l : list A) w :
  (forall a w0, a ∈ l -> grows w0 (fst (f a w0))) -> grows w (fst (for_each f l w)).
Proof.
  revert w. induction l as [|a l IH]; intros w Hf; simpl; [apply grows_refl|].
  pose proof (Hf a w (list_elem_of_here _ _)) as Hg.
  destruct (f a w) as [w1 [|msg]]; simpl in *; [|done].
  eapply grows_trans; [done|]. apply IH. intros a' w0 Ha'. apply Hf. by right.
Qed.

Lemma exec_grows (p : Prog C) w : grows w (fst (exec p w)).
Proof.
  revert w. induction p as [| msg | k IH | e k IH | T e c k IH | T e k IH
    | T e k IH | T e c k IH | sig k IH | sig body IHb k IH]; intros w; simpl;
    try apply grows_refl; try apply IH.
  - pose proof (createEntity_grows w) as Hg.
    destruct (createEntity w) as [w1 e1]. eapply grows_trans; [done | apply IH].
  - pose proof (destroyEntity_grows w e) as Hg.
    destruct (destroyEntity w e) as [w1 r]. eapply grows_trans; [done | apply IH].
  - pose proof (addComponent_grows w T e c) as Hg.
    destruct (addComponent w T e c) as [w1 r]. eapply grows_trans; [done | apply IH].
  - pose proof (removeComponent_grows w T e) as Hg.
    destruct (removeComponent w T e) as [w1 r]. eapply grows_trans; [done | apply IH].
  - pose proof (setComponent_grows w T e c) as Hg.
    destruct (setComponent w T e c) as [w1 r]. eapply grows_trans; [done | apply IH].
  - destruct (query w sig) as [ents|err]; [|apply IH].
    pose proof (for_each_grows (fun e w0 => exec (body e) w0) ents (enter w)
                  (fun a w0 _ => IHb a w0)) as Hg.
    assert (grows w (enter w)) as Hin by (by apply grows_same).
    destruct (for_each _ ents (enter w)) as [w1 [|msg]]; simpl in *.
    + eapply grows_trans; [apply Hin|]. eapply grows_trans; [apply Hg|].
      eapply grows_trans; [|apply IH]. by apply grows_same.
    + eapply grows_trans; [apply Hin|]. eapply grows_trans; [apply Hg|].
      by apply grows_same.
Qed.

Lemma run_phase_grows (steps : list (PhaseStep C)) w : grows w (run_phase steps w).
Proof.
  revert w. induction steps as [|st steps IH]; intros w; simpl; [apply grows_refl|].
  eapply grows_trans; [|apply IH].
  destruct st; simpl; [apply exec_grows | by apply grows_same | by apply grows_same].
Qed.

(** the systems' turns of a tick are such a phase *)
Lemma run_systems_phase (l : list (Entry C)) dt w :
  fst (run_systems l dt w) =
  run_phase ((fun x => Run (sys_logic (entry_system x) dt)) <$> l) w.
Proof.
  revert w. induction l as [|x l IH]; intros w; simpl; [done|].
  destruct (exec _ w) as [w1 o]. simpl. rewrite <- IH.
  by destruct (run_systems l dt w1).
Qed.

(** ** What a query sees can only grow before the boundary *)

Lemma query_Ok_registered w sig l : query w sig = Ok l -> sig ⊆ dom (stores w).
Proof.
  intros Hq. destruct (decide (sig ⊆ dom (stores w))) as [|Hn]; [done|].
  apply query_unregistered in Hn. congruence.
Qed.

Lemma grows_query w w' sig l :
  world_ok w -> world_ok w' -> grows w w' -> query w sig = Ok l ->
  exists l', query w' sig = Ok l' /\ l ⊆ l'.
Proof.
  intros Hok Hok' (Hg & Hs & _) Hq.
  pose proof (query_Ok_registered _ _ _ Hq) as Hsub.
  assert (sig ⊆ dom (stores w')) as Hsub'.
  { intros T [s HT]%Hsub%elem_of_dom. destruct (Hs _ _ HT) as (s' & Hs' & _).
    apply elem_of_dom. eauto. }
  destruct (query_spec w sig Hok Hsub) as (l0 & Hq0 & _ & Hl).
  destruct (query_spec w' sig Hok' Hsub') as (l' & Hq' & _ & Hl').
  rewrite Hq in Hq0. simplify_eq. exists l'. split; [done|].
  intros e [Ha Hheld]%Hl. apply Hl'. split.
  - unfold isAlive in *. by eapply alive_prefix.
  - intros T HT. destruct (Hheld T HT) as (s & HTs & He).
    destruct (Hs _ _ HTs) as (s' & Hs' & Ho & _). eauto.
Qed.

(** ** The tick boundary *)

Lemma issued_alive (r : Registry.t) e : Registry.isAlive r e = true -> issued r e.
Proof. intros Ha%isAlive_spec. exists (generation e). done. Qed.

Lemma issued_gen_le (r r' : Registry.t) e : gen_le r r' -> issued r e -> issued r' e.
Proof.
  intros Hle (g & Hg & Hlt). destruct (Hle _ _ Hg) as (g' & Hg' & Hle').
  exists g'. split; [done | lia].
Qed.

Lemma issued_dead_superseded (r : Registry.t) e :
  issued r e -> Registry.isAlive r e = false -> superseded r e.
Proof.
  intros (g & Hg & Hle) Hdead. exists g. split; [done|].
  destruct (decide (g = generation e)) as [->|]; [|lia].
  apply isAlive_spec in Hg. congruence.
Qed.

Lemma apply_op_gen_le w (o : Op C) : gen_le (registry w) (registry (apply_op w o)).
Proof.
  destruct o as [e | T e | T e c]; simpl.
  - unfold apply_destroy. pose proof (destroy_gen_le (registry w) e) as Hle.
    destruct (Registry.destroy (registry w) e) as [r [[]|err]]; simpl in *;
      [done | apply gen_le_refl].
  - destruct (isAlive w e); [|apply gen_le_refl].
    destruct (stores w !! T); apply gen_le_refl.
  - destruct (isAlive w e); [|apply gen_le_refl].
    destruct (stores w !! T); apply gen_le_refl.
Qed.

Lemma fold_apply_op_gen_le (q : list (Op C)) w :
  gen_le (registry w) (registry (fold_left apply_op q w)).
Proof.
  revert w. induction q as [|o q IH]; intros w; simpl; [apply gen_le_refl|].
  eapply gen_le_trans; [apply apply_op_gen_le | apply IH].
Qed.

Lemma apply_destroy_superseded w e :
  issued (registry w) e -> superseded (registry (apply_destroy w e)) e.
Proof.
  intros Hi. unfold apply_destroy.
  pose proof (destroy_superseded (registry w) e) as Hs.
  unfold Registry.destroy in *.
  destruct (Registry.isAlive (registry w) e) eqn:Ha; simpl in *; [auto|].
  by apply issued_dead_superseded.
Qed.

(** once the queue holds [OpDestroy e] for an issued handle, the boundary
    leaves the handle superseded *)
Lemma flush_destroyed w e :
  issued (registry w) e -> OpDestroy e ∈ pending w ->
  superseded (registry (flush w)) e.
Proof.
  intros Hi (pre & post & Hp)%list_elem_of_split. unfold flush. simpl.
  rewrite Hp, fold_left_app. cbn [fold_left apply_op].
  eapply superseded_gen_le; [apply fold_apply_op_gen_le|].
  apply apply_destroy_superseded.
  eapply issued_gen_le; [apply fold_apply_op_gen_le | done].
Qed.

Lemma lacks_same w w' T e :
  stores w' = stores w -> lacks w T e -> lacks w' T e.
Proof. unfold lacks. by intros ->. Qed.

Lemma apply_remove_lacks w T e : world_ok w -> lacks (apply_op w (OpRemove T e)) T e.
Proof.
  intros Hok s'. simpl. destruct (isAlive w e) eqn:Ha.
  - destruct (stores w !! T) as [s|] eqn:Hs; [|by rewrite Hs].
    simpl. rewrite lookup_insert_eq. intros [= <-].
    destruct (proj1 (world_ok_alt w) Hok _ _ Hs) as [Hd _].
    intros [_ Hne]%remove_owner_subseteq; done.
  - intros Hs He. destruct (proj1 (world_ok_alt w) Hok _ _ Hs) as [_ Hlive].
    apply Hlive in He. unfold isAlive in Ha. congruence.
Qed.

Lemma apply_op_lacks w (o : Op C) T e :
  world_ok w -> (forall c, o <> OpAdd T e c) -> lacks w T e -> lacks (apply_op w o) T e.
Proof.
  intros Hok Hno Hl. destruct o as [e' | T' e' | T' e' c']; simpl.
  - unfold apply_destroy, Registry.destroy.
    destruct (Registry.isAlive (registry w) e'); [|done].
    intros s'. simpl. rewrite lookup_fmap.
    destruct (stores w !! T) as [s|] eqn:Hs; [|done]. intros [= <-].
    destruct (proj1 (world_ok_alt w) Hok _ _ Hs) as [Hd _].
    intros [He _]%remove_owner_subseteq; [|done]. by apply (Hl s).
  - destruct (isAlive w e'); [|done].
    destruct (stores w !! T') as [s|] eqn:Hs; [|done].
    intros s'. simpl. rewrite lookup_insert. case_decide as HT.
    + subst T'. intros [= <-].
      destruct (proj1 (world_ok_alt w) Hok _ _ Hs) as [Hd _].
      intros [He _]%remove_owner_subseteq; [|done]. by apply (Hl s).
    + apply Hl.
  - destruct (isAlive w e'); [|done].
    destruct (stores w !! T') as [s|] eqn:Hs; [|done].
    intros s'. simpl. rewrite lookup_insert. case_decide as HT.
    + subst T'. intros [= <-]. intros [He | ->]%add_owner.
      * by apply (Hl s).
      * by apply (Hno c').
    + apply Hl.
Qed.

Lemma fold_apply_op_lacks (q : list (Op C)) w T e :
  world_ok w -> (forall c, OpAdd T e c ∉ q) -> lacks w T e ->
  lacks (fold_left apply_op q w) T e.
Proof.
  revert w. induction q as [|o q IH]; intros w Hok Hno Hl; simpl; [done|].
  apply IH.
  - by apply apply_op_ok.
  - intros c Hin. apply (Hno c). by right.
  - apply apply_op_lacks; [done | | done]. intros c ->. apply (Hno c). left.
Qed.

(** once the queue holds [OpRemove T e] with no add of [T] to [e] behind it,
    the boundary leaves [e] without a component of type [T] *)
Lemma flush_removed w T e pre post :
  world_ok w -> pending w = pre ++ OpRemove T e :: post ->
  (forall c, OpAdd T e c ∉ post) -> lacks (flush w) T e.
Proof.
  intros Hok Hp Hno. unfold flush.
  apply (lacks_same (fold_left apply_op (pending w) w)); [done|].
  rewrite Hp, fold_left_app. cbn [fold_left].
  pose proof (fold_apply_op_ok pre w Hok) as Hok1.
  apply fold_apply_op_lacks; [by apply apply_op_ok | done |].
  by apply apply_remove_lacks.
Qed.

Lemma query_alive w sig l e :
  world_ok w -> query w sig = Ok l -> e ∈ l -> isAlive w e = true.
Proof.
  intros Hok Hq He.
  destruct (query_spec w sig Hok (query_Ok_registered _ _ _ Hq)) as (l0 & Hq0 & _ & Hl).
  rewrite Hq in Hq0. simplify_eq. by apply Hl in He as [Ha _].
Qed.

Lemma query_lacks w sig l T e :
  world_ok w -> query w sig = Ok l -> T ∈ sig -> lacks w T e -> e ∉ l.
Proof.
  intros Hok Hq HT Hlack He.
  destruct (query_spec w sig Hok (query_Ok_registered _ _ _ Hq)) as (l0 & Hq0 & _ & Hl).
  rewrite Hq in Hq0. simplify_eq. apply Hl in He as [_ Hheld].
  destruct (Hheld T HT) as (s & Hs & Hin). by apply (Hlack s).
Qed.

(** ** Requests *)

Lemma request_deferred w (rq : Request C) w1 :
  deferred w rq = true -> request w rq = (w1, Ok tt) -> w1 = defer w (op_of rq).
Proof.
  destruct rq as [e | T e | T e c]; simpl.
  - intros _. unfold destroyEntity. destruct (isAlive w e); by intros [= <-].
  - intros _. unfold removeComponent. destruct (isAlive w e); [|done].
    destruct (stores w !! T) as [s|]; [|done]. destruct (Store.has s e); by intros [= <-].
  - intros Hit. unfold addComponent. destruct (isAlive w e); [|done].
    destruct (stores w !! T) as [s|]; [|done]. destruct (Store.has s e); [done|].
    rewrite Hit. by intros [= <-].
Qed.

Lemma request_alive w (rq : Request C) w1 :
  request w rq = (w1, Ok tt) ->
  isAlive w match rq with ReqDestroy e | ReqRemove _ e | ReqAdd _ e _ => e end = true.
Proof.
  destruct rq as [e | T e | T e c]; simpl.
  - unfold destroyEntity. by destruct (isAlive w e).
  - unfold removeComponent. by destruct (isAlive w e).
  - unfold addComponent. by destruct (isAlive w e).
Qed.

Lemma removeComponent_held w T e w1 :
  removeComponent w T e = (w1, Ok tt) ->
  exists s, stores w !! T = Some s /\ Store.has s e = true.
Proof.
  unfold removeComponent. destruct (isAlive w e); [|done].
  destruct (stores w !! T) as [s|]; [|done].
  destruct (Store.has s e) eqn:Hhas; [|done]. eauto.
Qed.

End Deferred.


(** * System Scheduler *)
Section Scheduler.
Context {C : Type}.
Implicit Types (w : World C) (l : list (Entry C)) (x : Entry C) (s : System C).
Local Open Scope Z_scope.

Lemma register_perm s key l : register s key l ≡ₚ mkEntry s key :: l.
Proof.
  induction l as [|x l IH]; simpl; [done|].
  destruct (Z.leb (entry_key x) key); [|done].
  by rewrite IH, Permutation_swap.
Qed.

Lemma register_sorted s key l :
  StronglySorted key_le l -> StronglySorted key_le (register s key l).
Proof.
  induction 1 as [|x l Hs IH Hx]; simpl.
  - repeat constructor.
  - destruct (Z.leb (entry_key x) key) eqn:Hle.
    + constructor; [done|]. rewrite register_perm.
      constructor; [|done]. unfold key_le. simpl. lia.
    + constructor; [by constructor|].
      constructor.
      * unfold key_le. simpl. lia.
      * eapply Forall_impl; [exact Hx|]. unfold key_le. simpl. intros y. lia.
Qed.

Lemma filter_none {A} (P : A -> Prop) `{!forall a, Decision (P a)} (l0 : list A) :
  Forall (fun a => ~ P a) l0 -> filter P l0 = [].
Proof.
  induction 1 as [|a l0 Ha _ IH]; [done|]. by rewrite filter_cons_False.
Qed.

(** registration keeps, key by key, the earlier systems first *)
Lemma register_filter s key l (k : Z) :
  StronglySorted key_le l ->
  filter (fun x => entry_key x = k) (register s key l) =
  filter (fun x => entry_key x = k) l ++ filter (fun x => entry_key x = k) [mkEntry s key].
Proof.
  induction 1 as [|x l Hs IH Hx]; simpl; [done|].
  destruct (Z.leb (entry_key x) key) eqn:Hle.
  - rewrite !filter_cons, IH. by destruct (decide (entry_key x = k)).
  - rewrite (filter_cons _ (mkEntry s key) (x :: l)),
      (filter_cons _ (mkEntry s key) []), filter_nil. simpl.
    destruct (decide (key = k)) as [->|]; [|by rewrite app_nil_r].
    assert (filter (fun y => entry_key y = k) (x :: l) = []) as ->; [|done].
    apply filter_none. constructor; [lia|].
    eapply Forall_impl; [exact Hx|]. unfold key_le. simpl. intros y. lia.
Qed.

Lemma schedule_snoc (regs : list (System C * Z)) sk :
  schedule (regs ++ [sk]) = register (fst sk) (snd sk) (schedule regs).
Proof. unfold schedule. by rewrite fold_left_app. Qed.

Lemma schedule_sorted (regs : list (System C * Z)) : StronglySorted key_le (schedule regs).
Proof.
  induction regs as [|sk regs IH] using rev_ind; [constructor|].
  rewrite schedule_snoc. by apply register_sorted.
Qed.

Lemma schedule_perm (regs : list (System C * Z)) : schedule regs ≡ₚ entry_of <$> regs.
Proof.
  induction regs as [|sk regs IH] using rev_ind; [done|].
  rewrite schedule_snoc, register_perm, IH, fmap_app. simpl.
  apply (Permutation_cons_append (entry_of <$> regs) (entry_of sk)).
Qed.

Lemma schedule_stable (regs : list (System C * Z)) (k : Z) :
  filter (fun x => entry_key x = k) (schedule regs) =
  filter (fun x => entry_key x = k) (entry_of <$> regs).
Proof.
  induction regs as [|sk regs IH] using rev_ind; [done|].
  rewrite schedule_snoc, register_filter by apply schedule_sorted.
  by rewrite IH, fmap_app, filter_app.
Qed.

Lemma register_all_systems (regs : list (System C * Z)) w :
  systems (register_all regs w) =
  fold_left (fun l sk => register (fst sk) (snd sk) l) regs (systems w).
Proof.
  revert w. induction regs as [|sk regs IH]; intros w; simpl; [done|].
  by rewrite IH.
Qed.

Lemma run_systems_names l dt w :
  fst <$> snd (run_systems l dt w) = (fun x => sys_name (entry_system x)) <$> l.
Proof.
  revert w. induction l as [|x l IH]; intros w; simpl; [done|].
  destruct (exec _ w) as [w1 o]. specialize (IH w1).
  destruct (run_systems l dt w1) as [w2 report]. simpl in *. by f_equal.
Qed.

(** the turn of one system, between the turns before and after it *)
Lemma run_systems_split pre x post dt w :
  run_systems (pre ++ x :: post) dt w =
  let '(wa, ra) := run_systems pre dt w in
  let '(wb, o) := exec (sys_logic (entry_system x) dt) wa in
  let '(wc, rc) := run_systems post dt wb in
  (wc, ra ++ (sys_name (entry_system x), o) :: rc).
Proof.
  revert w. induction pre as [|y pre IH]; intros w; simpl.
  - destruct (exec _ w) as [wb o]. by destruct (run_systems post dt wb).
  - destruct (exec _ w) as [w1 o1]. rewrite IH.
    destruct (run_systems pre dt w1) as [wa ra].
    destruct (exec _ wa) as [wb o]. by destruct (run_systems post dt wb).
Qed.

Lemma failures_recorded (ra rc : list (string * Outcome)) name msg :
  (name, msg) ∈ failures (ra ++ (name, Raised msg) :: rc).
Proof.
  unfold failures. apply list_elem_of_omap. exists (name, Raised msg).
  split; [|done]. apply elem_of_app. right. left.
Qed.

End Scheduler.

(** C5. [tick] gives every registered system exactly one turn, in ascending
    order key with equal keys in registration order; whatever the outcome of
    a system's turn, the systems behind it run from the state it left, and a
    raised error is recorded under the system's name. *)
Theorem tick_runs_every_system_once_in_order {C} (regs : list (System C * Z))
    (w : World C) (dt : DeltaTime) :
  let w0 := register_all regs (with_systems w []) in
  systems w0 = schedule regs /\
  StronglySorted (fun a b => (entry_key a <= entry_key b)%Z) (schedule regs) /\
  schedule regs ≡ₚ entry_of <$> regs /\
  (forall k : Z,
     filter (fun x => entry_key x = k) (schedule regs) =
     filter (fun x => entry_key x = k) (entry_of <$> regs)) /\
  fst <$> snd (tick w0 dt) = (fun x => sys_name (entry_system x)) <$> schedule regs /\
  (forall pre x post, schedule regs = pre ++ x :: post ->
     let '(wa, ra) := run_systems pre dt w0 in
     let '(wb, o) := exec (sys_logic (entry_system x) dt) wa in
     let '(wc, rc) := run_systems post dt wb in
     tick w0 dt = (flush wc, ra ++ (sys_name (entry_system x), o) :: rc) /\
     forall msg, o = Raised msg ->
       (sys_name (entry_system x), msg) ∈ failures (snd (tick w0 dt))).
Proof.
  intros w0.
  assert (systems w0 = schedule regs) as Hsys by apply register_all_systems.
  split; [done|]. split; [apply schedule_sorted|].
  split; [apply schedule_perm|]. split; [apply schedule_stable|]. split.
  - unfold tick. rewrite <- Hsys. rewrite <- (run_systems_names (systems w0) dt w0).
    by destruct (run_systems (systems w0) dt w0).
  - intros pre x post Hsplit. unfold tick. rewrite Hsys, Hsplit, run_systems_split.
    destruct (run_systems pre dt w0) as [wa ra].
    destruct (exec _ wa) as [wb o]. destruct (run_systems post dt wb) as [wc rc].
    split; [done|]. intros msg ->. simpl. apply failures_recorded.
Qed.

(** * Determinism *)
Section Determinism.
Context {C : Type}.
Implicit Types (w : World C) (p : Prog C).

Lemma for_each_ext {A} (f g : A -> World C -> World C * Outcome) (l : list A) w :
  (forall a w0, f a w0 = g a w0) -> for_each f l w = for_each g l w.
Proof.
  intros Hfg. revert w. induction l as [|a l IH]; intros w; simpl; [done|].
  rewrite Hfg. destruct (g a w) as [w1 [|msg]]; [apply IH | done].
Qed.

Lemma exec_ext p p' : prog_eq p p' -> forall w, exec p w = exec p' w.
Proof.
  induction 1 as [| msg | k k' _ IH | e k k' _ IH | T e c k k' _ IH | T e k k' _ IH
    | T e k k' _ IH | T e c k k' _ IH | sig k k' _ IH
    | sig body body' k k' _ IHb _ IH]; intros w; simpl; try done.
  - destruct (createEntity w). apply IH.
  - destruct (destroyEntity w e). apply IH.
  - destruct (addComponent w T e c). apply IH.
  - destruct (removeComponent w T e). apply IH.
  - destruct (setComponent w T e c). apply IH.
  - destruct (query w sig) as [ents|err]; [|apply IH].
    rewrite (for_each_ext _ (fun e w0 => exec (body' e) w0)) by (intros; apply IHb).
    destruct (for_each _ ents (enter w)) as [w1 [|msg]]; [apply IH | done].
Qed.

(** programs do not look at the list of systems *)
Lemma for_each_with_systems {A} (f : A -> World C -> World C * Outcome)
    (l : list A) w ls :
  (forall a w0, a ∈ l ->
     f a (with_systems w0 ls) = (with_systems (fst (f a w0)) ls, snd (f a w0))) ->
  for_each f l (with_systems w ls) =
  (with_systems (fst (for_each f l w)) ls, snd (for_each f l w)).
Proof.
  revert w. induction l as [|a l IH]; intros w Hf; simpl; [done|].
  rewrite (Hf a w) by left.
  destruct (f a w) as [w1 [|msg]]; simpl; [|done].
  apply IH. intros a' w0 Ha'. apply Hf. by right.
Qed.

Lemma exec_with_systems p w ls :
  exec p (with_systems w ls) = (with_systems (fst (exec p w)) ls, snd (exec p w)).
Proof.
  revert w. induction p as [| msg | k IH | e k IH | T e c k IH | T e k IH
    | T e k IH | T e c k IH | sig k IH | sig body IHb k IH]; intros w; simpl;
    try done.
  - unfold createEntity. simpl. destruct (Registry.create (registry w)) as [e r].
    apply (IH e (with_registry w r)).
  - unfold destroyEntity, isAlive. simpl.
    destruct (Registry.isAlive (registry w) e); [apply (IH _ (defer w _)) | apply IH].
  - unfold addComponent, isAlive. simpl.
    destruct (Registry.isAlive (registry w) e); [|apply IH].
    destruct (stores w !! T) as [s|]; [|apply IH].
    destruct (Store.has s e); [apply IH|].
    destruct (Nat.ltb 0 (iterating w));
      [apply (IH _ (defer w _)) | apply (IH _ (with_stores w _))].
  - unfold removeComponent, isAlive. simpl.
    destruct (Registry.isAlive (registry w) e); [|apply IH].
    destruct (stores w !! T) as [s|]; [|apply IH].
    destruct (Store.has s e); [apply (IH _ (defer w _)) | apply IH].
  - unfold setComponent, isAlive. simpl.
    destruct (Registry.isAlive (registry w) e); [|apply IH].
    destruct (stores w !! T) as [s|]; [|apply IH].
    destruct (Store.has s e); [apply (IH _ (with_stores w _)) | apply IH].
  - change (query (with_systems w ls) sig) with (query w sig).
    destruct (query w sig) as [ents|err]; [|apply IH].
    change (enter (with_systems w ls)) with (with_systems (enter w) ls).
    rewrite for_each_with_systems by (intros; apply IHb).
    destruct (for_each _ ents (enter w)) as [w1 [|msg]]; simpl; [|done].
    apply (IH _ (leave w1)).
Qed.

Lemma apply_op_with_systems w ls (o : Op C) :
  apply_op (with_systems w ls) o = with_systems (apply_op w o) ls.
Proof.
  destruct o as [e | T e | T e c]; simpl.
  - unfold apply_destroy. simpl.
    by destruct (Registry.destroy (registry w) e) as [r [[]|err]].
  - unfold isAlive. simpl. destruct (Registry.isAlive (registry w) e); [|done].
    by destruct (stores w !! T).
  - unfold isAlive. simpl. destruct (Registry.isAlive (registry w) e); [|done].
    by destruct (stores w !! T).
Qed.

Lemma flush_with_systems w ls : flush (with_systems w ls) = with_systems (flush w) ls.
Proof.
  unfold flush. simpl. generalize (pending w). intros q. revert w.
  induction q as [|o q IH]; intros w; simpl; [done|].
  rewrite apply_op_with_systems. apply IH.
Qed.

Lemma same_state_with_systems w w' :
  same_state w w' -> w' = with_systems w (systems w').
Proof. destruct w, w'. unfold same_state. simpl. intros (-> & -> & -> & ->). done. Qed.

Lemma with_systems_same_state w ls : same_state w (with_systems w ls).
Proof. done. Qed.

(** the same systems take the same turns from the same state *)
Lemma run_systems_same (l l' : list (Entry C)) dt w ls :
  Forall2 same_system l l' ->
  run_systems l' dt (with_systems w ls) =
  (with_systems (fst (run_systems l dt w)) ls, snd (run_systems l dt w)).
Proof.
  intros HF. revert w. induction HF as [|x x' l l' (Hn & _ & Hp) _ IH]; intros w;
    simpl; [done|].
  rewrite exec_with_systems, <- (exec_ext _ _ (Hp dt)).
  destruct (exec _ w) as [w1 o]. simpl. rewrite IH, Hn.
  by destruct (run_systems l dt w1).
Qed.

Lemma tick_same w w' dt :
  same_state w w' -> Forall2 same_system (systems w) (systems w') ->
  tick w' dt = (with_systems (fst (tick w dt)) (systems w'), snd (tick w dt)).
Proof.
  intros Hst Hsys. rewrite (same_state_with_systems _ _ Hst) at 1.
  unfold tick. simpl systems.
  rewrite (run_systems_same (systems w) (systems w') dt w (systems w') Hsys).
  destruct (run_systems (systems w) dt w) as [w1 report]. simpl.
  by rewrite flush_with_systems.
Qed.

End Determinism.


(** * The theorems at sample values *)

Lemma generation_safety_witness :
  Registry.isAlive registry1 (entity 0) = true /\
  Registry.destroy (reg_run [RCreate] (fst (Registry.destroy registry1 (entity 0))))
                   (entity 0) =
  (reg_run [RCreate] (fst (Registry.destroy registry1 (entity 0))), Err StaleEntity).
Proof.
  split; [reflexivity|].
  apply (@generation_safety nat registry1 (entity 0) [RCreate]). reflexivity.
Defined.




(** * The vector, collision and matrix theorems at sample values *)
Section MoreWitnesses.
Import Vector Collision Matrix.

Lemma subtract_self_witness :
  Vector2_subtract vec34 vec34 = Vector2_default /\
  Vector3_subtract vec123 vec123 = Vector3_default.
Proof.
  split.
  - apply (proj1 subtract_self vec34); reflexivity.
  - apply (proj2 subtract_self vec123); reflexivity.
Defined.

Lemma normalize_nan_witness :
  normalize (mkVector2 S754_nan F32.one) = Vector2_default /\
  Vector3_normalize (mkVector3 F32.one S754_nan F32.one) = Vector3_default.
Proof.
  split.
  - apply (proj1 normalize_nan (mkVector2 S754_nan F32.one)); reflexivity.
  - apply (proj2 normalize_nan (mkVector3 F32.one S754_nan F32.one)); reflexivity.
Defined.

Lemma normalize_overflow_witness :
  length (mkVector2 huge F32.one) = S754_infinity false /\
  F32.is_zero (v2x (normalize (mkVector2 huge F32.one))) = true /\
  F32.is_zero (v2y (normalize (mkVector2 huge F32.one))) = true.
Proof.
  split; [vm_compute; reflexivity|].
  apply (normalize_overflow (mkVector2 huge F32.one)); vm_compute; reflexivity.
Defined.

Lemma normalize_underflow_witness :
  F32.is_zero (length_squared (mkVector2 tiny tiny)) = true /\
  normalize (mkVector2 tiny tiny) = Vector2_default /\
  Vector3_normalize (mkVector3 tiny tiny tiny) = Vector3_default.
Proof.
  split; [vm_compute; reflexivity|]. split.
  - apply (proj1 normalize_underflow (mkVector2 tiny tiny)); vm_compute; reflexivity.
  - apply (proj2 normalize_underflow (mkVector3 tiny tiny tiny)); vm_compute;
      reflexivity.
Defined.

Lemma length_never_negative_witness :
  F32.ge (length_squared vec34) F32.zero = true /\
  F32.ge (length vec34) F32.zero = true /\
  F32.gt (length vec34) F32.zero = negb (F32.is_zero (length vec34)).
Proof. apply (length_never_negative vec34); reflexivity. Defined.

Lemma multiply_by_one_witness :
  Vector2_multiply vec34 F32.one = vec34 /\
  Vector3_multiply vec123 F32.one = vec123.
Proof.
  split.
  - apply (proj1 multiply_by_one vec34); vm_compute; reflexivity.
  - apply (proj2 multiply_by_one vec123); vm_compute; reflexivity.
Defined.

Lemma vector_fields_round_trip_witness :
  Vector2_init (F64.of_f32 (v2x vec34)) (F64.of_f32 (v2y vec34)) = vec34 /\
  Vector3_init (F64.of_f32 (v3x vec123)) (F64.of_f32 (v3y vec123))
               (F64.of_f32 (v3z vec123)) = vec123.
Proof.
  split.
  - apply (proj1 vector_fields_round_trip vec34); vm_compute; reflexivity.
  - apply (proj2 vector_fields_round_trip vec123); vm_compute; reflexivity.
Defined.

Lemma inverted_box_empty_witness :
  F32.le (min_x inverted_box) (max_x inverted_box) = false /\
  aabb_vs_aabb inverted_box inverted_box = false /\
  forall x y, point_vs_aabb x y inverted_box = false.
Proof.
  split; [vm_compute; reflexivity|].
  apply (inverted_box_empty inverted_box). vm_compute. reflexivity.
Defined.

Lemma nan_never_collides_witness :
  aabb_vs_aabb nan_box nan_box = false /\
  aabb_vs_aabb nan_box unit_box = false /\
  aabb_vs_aabb unit_box nan_box = false /\
  point_vs_aabb (f32_of_Z 1) (f32_of_Z 1) nan_box = false /\
  point_vs_aabb S754_nan (f32_of_Z 1) unit_box = false.
Proof.
  assert (F32.is_nan (min_x nan_box) || F32.is_nan (min_y nan_box) ||
          F32.is_nan (max_x nan_box) || F32.is_nan (max_y nan_box) = true) as Hn.
  { vm_compute. reflexivity. }
  split; [exact (proj1 (proj1 nan_never_collides nan_box nan_box F32.zero F32.zero Hn))|].
  destruct (proj1 nan_never_collides nan_box unit_box (f32_of_Z 1) (f32_of_Z 1) Hn)
    as (H1 & H2 & H3).
  split; [exact H1|]. split; [exact H2|]. split; [exact H3|].
  apply (proj2 nan_never_collides S754_nan (f32_of_Z 1) unit_box). reflexivity.
Defined.

Lemma common_point_overlap_witness :
  point_vs_aabb (f32_of_Z 1) (f32_of_Z 1) unit_box = true /\
  point_vs_aabb (f32_of_Z 1) (f32_of_Z 1) corner_box = true /\
  aabb_vs_aabb unit_box corner_box = true.
Proof.
  split; [vm_compute; reflexivity|]. split; [vm_compute; reflexivity|].
  apply (common_point_overlap (f32_of_Z 1) (f32_of_Z 1) unit_box corner_box);
    vm_compute; reflexivity.
Defined.

Lemma corners_inside_witness :
  aabb_vs_aabb corner_box corner_box = true /\
  point_vs_aabb (min_x corner_box) (min_y corner_box) corner_box = true /\
  point_vs_aabb (max_x corner_box) (max_y corner_box) corner_box = true /\
  point_vs_aabb (min_x corner_box) (max_y corner_box) corner_box = true /\
  point_vs_aabb (max_x corner_box) (min_y corner_box) corner_box = true.
Proof. apply (corners_inside corner_box); vm_compute; reflexivity. Defined.

Lemma degenerate_box_witness :
  width (mkAABB (f32_of_Z 3) (f32_of_Z 4) (f32_of_Z 3) (f32_of_Z 4)) = F32.zero /\
  height (mkAABB (f32_of_Z 3) (f32_of_Z 4) (f32_of_Z 3) (f32_of_Z 4)) = F32.zero /\
  F32.eq (v2x (center_AABB (mkAABB (f32_of_Z 3) (f32_of_Z 4) (f32_of_Z 3) (f32_of_Z 4))))
         (f32_of_Z 3) = true /\
  F32.eq (v2y (center_AABB (mkAABB (f32_of_Z 3) (f32_of_Z 4) (f32_of_Z 3) (f32_of_Z 4))))
         (f32_of_Z 4) = true.
Proof. apply (degenerate_box (f32_of_Z 3) (f32_of_Z 4)); vm_compute; reflexivity. Defined.

Lemma sphere_self_collision_witness : sphere_vs_sphere ball ball = true.
Proof. apply (sphere_self_collision ball); vm_compute; reflexivity. Defined.

Lemma identity3_neutral_witness :
  finite3 grid3 = true /\
  exists l r,
    Matrix3x3_mul (PyMatrix3x3 identity3) (PyMatrix3x3 grid3) = Some l /\
    Matrix3x3_mul (PyMatrix3x3 grid3) (PyMatrix3x3 identity3) = Some r /\
    Matrix3x3_eq l grid3 = true /\ Matrix3x3_eq r grid3 = true.
Proof.
  split; [vm_compute; reflexivity|].
  apply (identity3_neutral grid3). vm_compute. reflexivity.
Defined.

Lemma identity4_neutral_witness :
  finite4 grid4 = true /\
  exists l r,
    Matrix4x4_mul (PyMatrix4x4 identity4) (PyMatrix4x4 grid4) = Some l /\
    Matrix4x4_mul (PyMatrix4x4 grid4) (PyMatrix4x4 identity4) = Some r /\
    Matrix4x4_eq l grid4 = true /\ Matrix4x4_eq r grid4 = true.
Proof.
  split; [vm_compute; reflexivity|].
  apply (identity4_neutral grid4). vm_compute. reflexivity.
Defined.

Lemma identity3_not_neutral_witness :
  valid3 blown3 = true /\ finite3 blown3 = false /\
  exists l,
    Matrix3x3_mul (PyMatrix3x3 identity3) (PyMatrix3x3 blown3) = Some l /\
    Matrix3x3_eq l blown3 = false.
Proof.
  split; [vm_compute; reflexivity|]. split; [vm_compute; reflexivity|].
  apply (identity3_not_neutral blown3); vm_compute; reflexivity.
Defined.

Lemma from_values_round_trip_witness :
  from_values3 (F64.of_f32 (a00 grid3)) (F64.of_f32 (a01 grid3)) (F64.of_f32 (a02 grid3))
               (F64.of_f32 (a10 grid3)) (F64.of_f32 (a11 grid3)) (F64.of_f32 (a12 grid3))
               (F64.of_f32 (a20 grid3)) (F64.of_f32 (a21 grid3)) (F64.of_f32 (a22 grid3))
  = grid3 /\
  from_values4
    (F64.of_f32 (m00 grid4)) (F64.of_f32 (m01 grid4)) (F64.of_f32 (m02 grid4))
    (F64.of_f32 (m03 grid4)) (F64.of_f32 (m10 grid4)) (F64.of_f32 (m11 grid4))
    (F64.of_f32 (m12 grid4)) (F64.of_f32 (m13 grid4)) (F64.of_f32 (m20 grid4))
    (F64.of_f32 (m21 grid4)) (F64.of_f32 (m22 grid4)) (F64.of_f32 (m23 grid4))
    (F64.of_f32 (m30 grid4)) (F64.of_f32 (m31 grid4)) (F64.of_f32 (m32 grid4))
    (F64.of_f32 (m33 grid4))
  = grid4.
Proof.
  split.
  - apply (proj1 from_values_round_trip grid3). vm_compute. reflexivity.
  - apply (proj2 from_values_round_trip grid4). vm_compute. reflexivity.
Defined.

Lemma perspective_degenerate_witness :
  F32.is_finite (m22 (perspective (fun x => x) F32.one F32.one F32.one F32.one)) = false /\
  F32.is_finite (m23 (perspective (fun x => x) F32.one F32.one F32.one F32.one)) = false /\
  F32.is_finite (m00 (perspective (fun x => x) F32.one F32.zero F32.one (f32_of_Z 2)))
    = false.
Proof.
  destruct (proj1 perspective_degenerate (fun x => x) F32.one F32.one F32.one eq_refl)
    as [H1 H2].
  split; [exact H1|]. split; [exact H2|].
  apply (proj2 perspective_degenerate (fun x => x) F32.one F32.zero F32.one (f32_of_Z 2)).
  reflexivity.
Defined.


End MoreWitnesses.
